(** * Tacotron2 orchestrator (model/tacotron_old.py): a shallow embedding

    The Python class [Tacotron2] wires an embedding table, an encoder, a
    decoder and a postnet together and masks the outputs by length.  The
    tensor library is modelled by dense row-major tensors (a shape and a flat
    list of elements), the exceptions it raises by an error result, and the
    in-place writes of [masked_fill_] by an explicit heap of tensor objects.

    Scalars are binary64 floats: every value of a narrower floating dtype is
    one, the two literals the class writes ([0.0] and [1e3]) are exact in
    each, and the addition of the tensors' own dtype is a parameter; where
    the class fixes the dtype (the casts of [parse_batch], the embedding
    table) the rounding to 32 bits is written out.  Sizes
    and strides are natural numbers.  The encoder, the decoder and the
    postnet are functions of their arguments (weights and random state
    fixed) that may raise, and what they return are new tensor objects. *)

From Stdlib Require Import String.
From Stdlib Require Import List Arith ZArith Lia Bool PrimFloat Permutation
  Sorted.
From Stdlib Require Uint63 Floats.
Import ListNotations.

Set Implicit Arguments.

(** ** Exceptions as results

    A raised exception ends the run; what the heap held at that point is not
    kept. *)

Inductive exn : Type :=
| RuntimeError
| IndexError
| TypeError
| ValueError
| ZeroDivisionError.

Inductive result (A : Type) : Type :=
| Ok (a : A)
| Raise (e : exn).

Arguments Ok {A} a.
Arguments Raise {A} e.

Definition bind {A B : Type} (m : result A) (k : A -> result B) : result B :=
  match m with
  | Ok a => k a
  | Raise e => Raise e
  end.

Notation "x <- m ;; k" := (bind m (fun x => k))
  (at level 100, m at next level, right associativity).
Notation "' p <- m ;; k" := (bind m (fun x => let p := x in k))
  (at level 100, p pattern, m at next level, right associativity).

(** ** Dense tensors *)

Module Tensor.

Definition numel (sh : list nat) : nat := fold_right Nat.mul 1 sh.

(** Row-major position of a multi-index. *)
Fixpoint offset (sh idx : list nat) : nat :=
  match sh, idx with
  | _ :: sh', i :: idx' => i * numel sh' + offset sh' idx'
  | _, _ => 0
  end.

(** The multi-index of a row-major position. *)
Fixpoint unravel (sh : list nat) (k : nat) : list nat :=
  match sh with
  | [] => []
  | _ :: sh' => (k / numel sh') :: unravel sh' (k mod numel sh')
  end.

Fixpoint in_bounds (sh idx : list nat) : bool :=
  match sh, idx with
  | [], [] => true
  | n :: sh', i :: idx' => (i <? n) && in_bounds sh' idx'
  | _, _ => false
  end.

Record tensor (A : Type) : Type := mk {
  shape : list nat;
  data : list A
}.

Arguments mk {A} shape data.

Definition wf {A} (t : tensor A) : Prop :=
  length (data t) = numel (shape t).

Definition dim {A} (t : tensor A) : nat := length (shape t).

(** [t.size(i)] *)
Definition size {A} (t : tensor A) (i : nat) : result nat :=
  match nth_error (shape t) i with
  | Some n => Ok n
  | None => Raise IndexError
  end.

(** [t[idx]], when [idx] is a position of [t]. *)
Definition get {A} (t : tensor A) (idx : list nat) : option A :=
  if in_bounds (shape t) idx then nth_error (data t) (offset (shape t) idx)
  else None.

Definition get_or {A} (d : A) (t : tensor A) (idx : list nat) : A :=
  match get t idx with
  | Some x => x
  | None => d
  end.

(** The tensor of shape [sh] whose element at [idx] is [f idx]. *)
Definition build {A} (sh : list nat) (f : list nat -> A) : tensor A :=
  mk sh (map (fun k => f (unravel sh k)) (seq 0 (numel sh))).

(** Elementwise map with the position of each element. *)
Fixpoint mapi_from {A B} (k : nat) (f : nat -> A -> B) (l : list A) : list B :=
  match l with
  | [] => []
  | x :: l' => f k x :: mapi_from (S k) f l'
  end.

Definition mapi {A B} (f : list nat -> A -> B) (t : tensor A) : tensor B :=
  mk (shape t) (mapi_from 0 (fun k x => f (unravel (shape t) k) x) (data t)).

Definition tmap {A B} (f : A -> B) (t : tensor A) : tensor B :=
  mk (shape t) (map f (data t)).

End Tensor.

Import Tensor.

(** ** The tensor library's operations used by the model *)

Module Torch.

(** Broadcasting: a source of shape [sh] read at a position of a larger
    shape.  The leading positions that [sh] lacks are dropped and a
    dimension of size 1 is read at 0. *)
Fixpoint bcast_index (sh idx : list nat) : list nat :=
  match sh, idx with
  | n :: sh', i :: idx' => (if n =? 1 then 0 else i) :: bcast_index sh' idx'
  | _, _ => []
  end.

Definition bidx (sh idx : list nat) : list nat :=
  bcast_index sh (skipn (length idx - length sh) idx).

Definition dim_ok (n m : nat) : bool := (n =? m) || (n =? 1).

Fixpoint dims_ok (sh tg : list nat) : bool :=
  match sh, tg with
  | [], [] => true
  | n :: sh', m :: tg' => dim_ok n m && dims_ok sh' tg'
  | _, _ => false
  end.

Definition broadcastable_to (sh target : list nat) : bool :=
  (length sh <=? length target)
  && dims_ok sh (skipn (length target - length sh) target).

(** [~t] on a boolean tensor. *)
Definition logical_not (t : tensor bool) : tensor bool := tmap negb t.

(** [t.expand(sizes)] *)
Definition expand {A} (d : A) (t : tensor A) (sizes : list nat)
  : result (tensor A) :=
  if broadcastable_to (shape t) sizes
  then Ok (build sizes (fun idx => get_or d t (bidx (shape t) idx)))
  else Raise RuntimeError.

Fixpoint index_of (j : nat) (l : list nat) : nat :=
  match l with
  | [] => 0
  | x :: l' => if x =? j then 0 else S (index_of j l')
  end.

Definition is_permutation_of_dims (dims : list nat) (n : nat) : bool :=
  (length dims =? n)
  && forallb (fun j => existsb (Nat.eqb j) dims) (seq 0 n).

(** [t.permute(dims)]: dimension [k] of the result is dimension [dims[k]]
    of [t]. *)
Definition permute {A} (d : A) (t : tensor A) (dims : list nat)
  : result (tensor A) :=
  if is_permutation_of_dims dims (dim t)
  then Ok (build (map (fun p => nth p (shape t) 0) dims)
             (fun idx =>
                get_or d t
                  (map (fun j => nth (index_of j dims) idx 0)
                     (seq 0 (dim t)))))
  else Raise RuntimeError.

(** [t.transpose(d0, d1)] *)
Definition transpose {A} (d : A) (t : tensor A) (d0 d1 : nat)
  : result (tensor A) :=
  if (d0 <? dim t) && (d1 <? dim t)
  then permute d t
         (map (fun k => if k =? d0 then d1 else if k =? d1 then d0 else k)
            (seq 0 (dim t)))
  else Raise IndexError.

(** [torch.arange(0, stop, step)], a 1-D tensor of indices given as a list. *)
Definition arange (stop step : nat) : result (list nat) :=
  if step =? 0 then Raise RuntimeError
  else Ok (map (fun k => k * step) (seq 0 ((stop + step - 1) / step))).

(** [t[:, c, index]] for a 3-D tensor [t], an integer [c] and a 1-D index
    tensor [index]: the result has shape [(t.size(0), len(index))]. *)
Definition getitem_slice_int_index {A} (d : A) (t : tensor A) (c : nat)
  (index : list nat) : result (tensor A) :=
  match shape t with
  | [n0; n1; n2] =>
      if (c <? n1) && forallb (fun i => i <? n2) index
      then Ok (build [n0; length index]
                 (fun idx =>
                    get_or d t [nth 0 idx 0; c; nth (nth 1 idx 0) index 0]))
      else Raise IndexError
  | _ => Raise IndexError
  end.

(** The value of [t.masked_fill_(mask, v)]: [mask] is broadcast to the shape
    of [t], which keeps its shape. *)
Definition masked_fill {A} (t : tensor A) (mask : tensor bool) (v : A)
  : result (tensor A) :=
  if broadcastable_to (shape mask) (shape t)
  then Ok (mapi (fun idx x =>
                   if get_or false mask (bidx (shape mask) idx) then v else x)
             t)
  else Raise RuntimeError.

(** The common shape of two operands, aligned on their last dimensions
    (given reversed). *)
Fixpoint broadcast_rev (a b : list nat) : option (list nat) :=
  match a, b with
  | [], _ => Some b
  | _, [] => Some a
  | n :: a', m :: b' =>
      match broadcast_rev a' b' with
      | Some r =>
          if n =? m then Some (n :: r)
          else if n =? 1 then Some (m :: r)
          else if m =? 1 then Some (n :: r)
          else None
      | None => None
      end
  end.

Definition broadcast_shapes (a b : list nat) : option (list nat) :=
  option_map (@rev nat) (broadcast_rev (rev a) (rev b)).

(** [a + b], elementwise with broadcasting; [f] adds two scalars. *)
Definition add {A} (d : A) (f : A -> A -> A) (a b : tensor A)
  : result (tensor A) :=
  match broadcast_shapes (shape a) (shape b) with
  | Some sh =>
      Ok (build sh (fun idx =>
                      f (get_or d a (bidx (shape a) idx))
                        (get_or d b (bidx (shape b) idx))))
  | None => Raise RuntimeError
  end.

(** [torch.max(t).item()] *)
Definition max (t : tensor Z) : result Z :=
  match data t with
  | [] => Raise RuntimeError
  | x :: l => Ok (fold_left Z.max l x)
  end.

Fixpoint insert_desc (x : Z) (l : list Z) : list Z :=
  match l with
  | [] => [x]
  | y :: l' => if (y <=? x)%Z then x :: l else y :: insert_desc x l'
  end.

(** The values of [torch.sort(t, dim = 0, descending = True)] for a 1-D [t]. *)
Fixpoint sort_desc (l : list Z) : list Z :=
  match l with
  | [] => []
  | x :: l' => insert_desc x (sort_desc l')
  end.

(** [nn.Embedding.forward]: the rows of [weight] selected by [ids]. *)
Definition embedding_lookup (weight : tensor float) (ids : tensor Z)
  : result (tensor float) :=
  match shape weight with
  | [n; e] =>
      if forallb (fun i => (0 <=? i)%Z && (i <? Z.of_nat n)%Z) (data ids)
      then Ok (build (shape ids ++ [e])
                 (fun idx =>
                    get_or 0%float weight
                      [Z.to_nat (get_or 0%Z ids (removelast idx));
                       last idx 0]))
      else Raise IndexError
  | _ => Raise RuntimeError
  end.

Definition int32_ok (x : Z) : bool :=
  (-2147483648 <=? x)%Z && (x <=? 2147483647)%Z.

Definition int64_ok (x : Z) : bool :=
  (-9223372036854775808 <=? x)%Z && (x <=? 9223372036854775807)%Z.

(** [torch.IntTensor(l)] reads the integers of [l] one after the other: the
    first that does not fit 32 bits ends it, with [RuntimeError] if it fits
    64 bits and with [ValueError] if it does not. *)
Fixpoint int_tensor_check (l : list Z) : result unit :=
  match l with
  | [] => Ok tt
  | x :: l' =>
      if int32_ok x then int_tensor_check l'
      else if int64_ok x then Raise RuntimeError
      else Raise ValueError
  end.

(** [torch.IntTensor(l)[None, :].long()] *)
Definition row_tensor (l : list Z) : result (tensor Z) :=
  _ <- int_tensor_check l ;; Ok (mk [1; length l] l).

(** [[len(x) for x in t]]: iterating a tensor yields its sub-tensors along
    the first dimension, and [len] of a sub-tensor is its own first size. *)
Definition row_lengths {A} (t : tensor A) : result (list Z) :=
  match shape t with
  | [] => Raise TypeError
  | [0] => Ok []
  | [_] => Raise TypeError
  | n :: m :: _ => Ok (repeat (Z.of_nat m) n)
  end.

End Torch.

(** ** The heap of tensor objects

    [masked_fill_] writes into the tensor object it is called on.  A tensor
    object is a cell of the heap; a Python reference to it is its position. *)

Definition loc : Type := nat.
Definition heap : Type := list (tensor float).

Definition alloc (h : heap) (t : tensor float) : heap * loc :=
  (h ++ [t], length h).

Fixpoint write (h : heap) (l : loc) (t : tensor float) : heap :=
  match h, l with
  | [], _ => []
  | _ :: h', 0 => t :: h'
  | x :: h', S l' => x :: write h' l' t
  end.

Definition read (h : heap) (l : loc) : option (tensor float) := nth_error h l.

(** The element of the tensor object at [l], at position [idx]. *)
Definition read_at (h : heap) (l : loc) (idx : list nat) : option float :=
  match read h l with
  | Some t => get t idx
  | None => None
  end.

(** [ref.data.masked_fill_(mask, v)] *)
Definition masked_fill_ (h : heap) (l : loc) (mask : tensor bool) (v : float)
  : result heap :=
  match read h l with
  | Some t => t' <- Torch.masked_fill t mask v ;; Ok (write h l t')
  | None => Raise RuntimeError
  end.

(** [outputs[i]] on a Python list *)
Definition getitem {A} (l : list A) (i : nat) : result A :=
  match nth_error l i with
  | Some x => Ok x
  | None => Raise IndexError
  end.

(** ** Collaborators outside this file *)

(** The fields of [hparams.hparams] that the class reads. *)
Module Hps.
Record hparams : Type := mk {
  num_mels : nat;
  mask_padding : bool;
  n_frames_per_step : nat;
  n_symbols : nat;
  symbols_embedding_dim : nat;
  text_cleaners : list string
}.
End Hps.

(** [model.Encoder], [model.Decoder] and [model.Postnet]: their call
    signatures; what they compute is left open. *)
Record Encoder : Type := {
  encoder_forward : tensor float -> tensor Z -> result (tensor float);
  encoder_inference : tensor float -> result (tensor float)
}.

Definition decoded : Type := (tensor float * tensor float * tensor float)%type.

Record Decoder : Type := {
  decoder_forward :
    tensor float -> tensor float -> tensor Z -> result decoded;
  decoder_inference : tensor float -> result decoded
}.

Definition Postnet : Type := tensor float -> result (tensor float).

(** The value of a binary64 float in the 32-bit floating dtype: rounded to
    the nearest binary32 value, ties to even, beyond the largest one to an
    infinity; zeros, infinities and NaN as they are. *)
Definition to_float32 (x : float) : float :=
  match FloatOps.Prim2SF x with
  | SpecFloat.S754_finite s m e =>
      FloatOps.SF2Prim
        (SpecFloat.binary_normalize 24 128 (if s then Zneg m else Zpos m) e s)
  | _ => x
  end.

(** The value of an integer in the 32-bit floating dtype. *)
Definition float32_of_long (z : Z) : float :=
  FloatOps.SF2Prim (SpecFloat.binary_normalize 24 128 z 0 false).

(** A tensor of a batch before its dtype is fixed: of an integer dtype, of a
    floating dtype of at most 32 bits, or of the 64-bit floating dtype. *)
Inductive any_tensor : Type :=
| LongT (t : tensor Z)
| FloatT (t : tensor float)
| DoubleT (t : tensor float).

(** What the module imports: the hyper-parameters, [utils.util],
    [text.text_to_sequence], the constructors of the three networks, and the
    tensor library's scalar arithmetic, its conversion of a float to an
    integer and its sampler ([uniform_ sh lo hi] is the draw of
    [t.uniform_(lo, hi)] for a 32-bit floating [t] of shape [sh]). *)
Record Env : Type := {
  hps : Hps.hparams;
  get_mask_from_lengths : tensor Z -> bool -> result (tensor bool);
  text_to_sequence : string -> list string -> result (list Z);
  new_Encoder : Encoder;
  new_Decoder : Decoder;
  new_Postnet : Postnet;
  scalar_add : float -> float -> float;
  long_of_float : float -> Z;
  uniform_ : list nat -> float -> float -> result (tensor float)
}.

(** Modelled from the spec: [utils.util.mode], the device-placement
    collaborator, "moves/casts tensors to the execution device".  Devices are
    not part of the model, so it returns its argument. *)
Definition mode {A} (x : A) : A := x.

(** [t.long()] and [t.float()] *)
Module Cast.

Definition long (E : Env) (t : any_tensor) : tensor Z :=
  match t with
  | LongT t => t
  | FloatT t | DoubleT t => tmap (long_of_float E) t
  end.

Definition float (E : Env) (t : any_tensor) : tensor PrimFloat.float :=
  match t with
  | LongT t => tmap float32_of_long t
  | FloatT t => t
  | DoubleT t => tmap to_float32 t
  end.

End Cast.

(** ** The class *)

Record Tacotron2 : Type := {
  num_mels : nat;
  mask_padding : bool;
  n_frames_per_step : nat;
  embedding : tensor float;
  encoder : Encoder;
  decoder : Decoder;
  postnet : Postnet
}.

Definition float_of_nat (n : nat) : float :=
  PrimFloat.of_uint63 (Uint63.of_Z (Z.of_nat n)).

(** [sqrt(3.0) * sqrt(2.0 / (n_symbols + symbols_embedding_dim))], in the
    binary64 arithmetic of Python floats. *)
Definition uniform_bound (n_symbols symbols_embedding_dim : nat)
  : float :=
  let std := PrimFloat.sqrt (2 / float_of_nat (n_symbols + symbols_embedding_dim))%float in
  (PrimFloat.sqrt 3 * std)%float.

(** [Tacotron2.__init__] *)
Definition __init__ (E : Env) : result Tacotron2 :=
  let n := Hps.n_symbols (hps E) in
  let e := Hps.symbols_embedding_dim (hps E) in
  if n + e =? 0 then Raise ZeroDivisionError
  else
    let val := uniform_bound n e in
    weight <- uniform_ E [n; e] (- val)%float val ;;
    Ok {| num_mels := Hps.num_mels (hps E);
          mask_padding := Hps.mask_padding (hps E);
          n_frames_per_step := Hps.n_frames_per_step (hps E);
          embedding := weight;
          encoder := new_Encoder E;
          decoder := new_Decoder E;
          postnet := new_Postnet E |}.

Definition batch : Type :=
  (any_tensor * any_tensor * any_tensor * any_tensor * any_tensor)%type.

Definition model_inputs : Type :=
  (tensor Z * tensor Z * tensor float * Z * tensor Z)%type.

Definition model_targets : Type :=
  (tensor float * tensor float)%type.

(** [Tacotron2.parse_batch] *)
Definition parse_batch (E : Env) (b : batch)
  : result (model_inputs * model_targets) :=
  let '(text_padded, input_lengths, mel_padded, gate_padded, output_lengths) := b in
  let text_padded := Cast.long E (mode text_padded) in
  let input_lengths := Cast.long E (mode input_lengths) in
  max_len <- Torch.max input_lengths ;;
  let mel_padded := Cast.float E (mode mel_padded) in
  let gate_padded := Cast.float E (mode gate_padded) in
  let output_lengths := Cast.long E (mode output_lengths) in
  Ok ((text_padded, input_lengths, mel_padded, max_len, output_lengths),
      (mel_padded, gate_padded)).

(** [Tacotron2.parse_output]: the list of references it returns is the one
    it was given; the tensors are rewritten in the heap. *)
Definition parse_output (self : Tacotron2) (E : Env) (h : heap)
  (outputs : list loc) (output_lengths : option (tensor Z))
  : result (heap * list loc) :=
  match mask_padding self, output_lengths with
  | true, Some output_lengths =>
      m <- get_mask_from_lengths E output_lengths true ;;
      let mask := Torch.logical_not m in
      s0 <- size mask 0 ;;
      s1 <- size mask 1 ;;
      mask <- Torch.expand false mask [num_mels self; s0; s1] ;;
      mask <- Torch.permute false mask [1; 0; 2] ;;
      o0 <- getitem outputs 0 ;;
      h <- masked_fill_ h o0 mask 0%float ;;
      o1 <- getitem outputs 1 ;;
      h <- masked_fill_ h o1 mask 0%float ;;
      s2 <- size mask 2 ;;
      slice <- Torch.arange s2 (n_frames_per_step self) ;;
      o2 <- getitem outputs 2 ;;
      gate_mask <- Torch.getitem_slice_int_index false mask 0 slice ;;
      h <- masked_fill_ h o2 gate_mask 1e3%float ;;
      Ok (h, outputs)
  | _, _ => Ok (h, outputs)
  end.

(** The four tensors a pass hands to [parse_output].  The sum is an object
    the pass creates; the three results of the decoder are taken to be
    objects of their own as well, apart from each other and from every
    tensor the caller holds (a decoder that handed back one of its
    arguments would have it masked in place, which is outside this model). *)
Definition alloc_outputs (h : heap)
  (mel_outputs mel_outputs_postnet gate_outputs alignments : tensor float)
  : heap * list loc :=
  let '(h, l0) := alloc h mel_outputs in
  let '(h, l1) := alloc h mel_outputs_postnet in
  let '(h, l2) := alloc h gate_outputs in
  let '(h, l3) := alloc h alignments in
  (h, [l0; l1; l2; l3]).

Definition tensor_add (E : Env) (a b : tensor float)
  : result (tensor float) :=
  Torch.add 0%float (scalar_add E) a b.

(** [Tacotron2.forward] *)
Definition forward (self : Tacotron2) (E : Env) (h : heap)
  (inputs : model_inputs) : result (heap * list loc) :=
  let '(text_inputs, text_lengths, mels, max_len, output_lengths) := inputs in
  e <- Torch.embedding_lookup (embedding self) text_inputs ;;
  embedded_inputs <- Torch.transpose 0%float e 1 2 ;;
  encoder_outputs <- encoder_forward (encoder self) embedded_inputs text_lengths ;;
  r <- decoder_forward (decoder self) encoder_outputs mels text_lengths ;;
  let '(mel_outputs, gate_outputs, alignments) := r in
  mel_outputs_postnet <- postnet self mel_outputs ;;
  mel_outputs_postnet <- tensor_add E mel_outputs mel_outputs_postnet ;;
  let '(h, outputs) :=
    alloc_outputs h mel_outputs mel_outputs_postnet gate_outputs alignments in
  parse_output self E h outputs (Some output_lengths).

(** [Tacotron2.inference] *)
Definition inference (self : Tacotron2) (E : Env) (h : heap)
  (inputs : tensor Z) : result (heap * list loc) :=
  e <- Torch.embedding_lookup (embedding self) inputs ;;
  embedded_inputs <- Torch.transpose 0%float e 1 2 ;;
  encoder_outputs <- encoder_inference (encoder self) embedded_inputs ;;
  r <- decoder_inference (decoder self) encoder_outputs ;;
  let '(mel_outputs, gate_outputs, alignments) := r in
  mel_outputs_postnet <- postnet self mel_outputs ;;
  mel_outputs_postnet <- tensor_add E mel_outputs mel_outputs_postnet ;;
  let '(h, outputs) :=
    alloc_outputs h mel_outputs mel_outputs_postnet gate_outputs alignments in
  parse_output self E h outputs None.

(** [Tacotron2.teacher_infer] *)
Definition teacher_infer (self : Tacotron2) (E : Env) (h : heap)
  (inputs : tensor Z) (mels : tensor float)
  : result (heap * list loc) :=
  lens <- Torch.row_lengths inputs ;;
  let il := Torch.sort_desc lens in
  let text_lengths := mode (Tensor.mk [length il] il) in
  e <- Torch.embedding_lookup (embedding self) inputs ;;
  embedded_inputs <- Torch.transpose 0%float e 1 2 ;;
  encoder_outputs <- encoder_forward (encoder self) embedded_inputs text_lengths ;;
  r <- decoder_forward (decoder self) encoder_outputs mels text_lengths ;;
  let '(mel_outputs, gate_outputs, alignments) := r in
  mel_outputs_postnet <- postnet self mel_outputs ;;
  mel_outputs_postnet <- tensor_add E mel_outputs mel_outputs_postnet ;;
  let '(h, outputs) :=
    alloc_outputs h mel_outputs mel_outputs_postnet gate_outputs alignments in
  parse_output self E h outputs None.

(** [Tacotron2.infer] *)
Definition infer (self : Tacotron2) (E : Env) (h : heap) (text : string)
  : result (heap * (loc * loc * loc)) :=
  sequence <- text_to_sequence E text (Hps.text_cleaners (hps E)) ;;
  sequence <- Torch.row_tensor sequence ;;
  let sequence := mode sequence in
  r <- inference self E h sequence ;;
  let '(h, outputs) := r in
  match outputs with
  | [mel_outputs; mel_outputs_postnet; _; alignments] =>
      Ok (h, (mel_outputs, mel_outputs_postnet, alignments))
  | _ => Raise ValueError
  end.

(** ** Sample collaborators and a sample batch

    Small instances of the collaborators, on which the model is run. *)

Module Sample.

(** Modelled from the spec: [utils.util.get_mask_from_lengths] is not part of
    this file; the spec calls it "a length-to-mask collaborator producing
    boolean padding masks from length vectors".  Row [b] of this instance is
    true at the positions [t < lengths[b]] and as wide as the longest item. *)
Definition padding_mask (lengths : tensor Z) (pad : bool)
  : result (tensor bool) :=
  max_len <- Torch.max lengths ;;
  Ok (build [length (data lengths); Z.to_nat max_len]
        (fun idx =>
           Z.ltb (Z.of_nat (nth 1 idx 0))
             (nth (nth 0 idx 0) (data lengths) 0%Z))).

Definition char_ids (text : string) (cleaners : list string)
  : result (list Z) :=
  Ok (map (fun c => (Z.of_nat (Ascii.nat_of_ascii c) mod 2)%Z)
        (list_ascii_of_string text)).

Definition const_like (v : float) (t : tensor float) : tensor float :=
  tmap (fun _ => v) t.

(** An encoder that hands its input on. *)
Definition the_encoder : Encoder :=
  {| encoder_forward := fun x _ => Ok x;
     encoder_inference := fun x => Ok x |}.

(** A decoder for two frames per step: teacher-forced, it answers with the
    targets themselves; free-running, with one item of two channels and four
    frames. *)
Definition the_decoder : Decoder :=
  {| decoder_forward := fun enc mels _ =>
       let b := nth 0 (shape mels) 0 in
       let t := nth 2 (shape mels) 0 in
       Ok (mels,
           build [b; t / 2] (fun _ => 0.5%float),
           build [b; t / 2; nth 2 (shape enc) 0] (fun _ => 0.25%float));
     decoder_inference := fun enc =>
       Ok (build [1; 2; 4] (fun idx => float_of_nat (nth 2 idx 0)),
           build [1; 2] (fun _ => 0.5%float),
           build [1; 2; nth 2 (shape enc) 0] (fun _ => 0.25%float)) |}.

Definition the_postnet : Postnet := fun x => Ok (const_like 1%float x).

(** A sampler that draws the lower bound for the even rows and the upper
    bound for the odd ones. *)
Definition sample_weights (sh : list nat) (lo hi : float) : tensor float :=
  build sh (fun idx => if Nat.even (nth 0 idx 0) then lo else hi).

(** The same sampler on a 32-bit floating tensor: the bounds as the dtype
    has them. *)
Definition float32_weights (sh : list nat) (lo hi : float) : tensor float :=
  sample_weights sh (to_float32 lo) (to_float32 hi).

Definition hparams (mask_padding : bool) : Hps.hparams :=
  {| Hps.num_mels := 2;
     Hps.mask_padding := mask_padding;
     Hps.n_frames_per_step := 2;
     Hps.n_symbols := 2;
     Hps.symbols_embedding_dim := 1;
     Hps.text_cleaners := ["english_cleaners"%string] |}.

Definition env (mask_padding : bool) : Env :=
  {| hps := hparams mask_padding;
     get_mask_from_lengths := padding_mask;
     text_to_sequence := char_ids;
     new_Encoder := the_encoder;
     new_Decoder := the_decoder;
     new_Postnet := the_postnet;
     scalar_add := PrimFloat.add;
     long_of_float := fun _ => 0%Z;
     uniform_ := fun sh lo hi =>
       if PrimFloat.leb lo hi then Ok (sample_weights sh lo hi)
       else Raise RuntimeError |}.

(** An environment with a vocabulary of [n_symbols] symbols, embedded in
    [symbols_embedding_dim] dimensions, and the sampler of 32-bit tables. *)
Definition float32_env (n_symbols symbols_embedding_dim : nat) : Env :=
  {| hps :=
       {| Hps.num_mels := 2;
          Hps.mask_padding := true;
          Hps.n_frames_per_step := 2;
          Hps.n_symbols := n_symbols;
          Hps.symbols_embedding_dim := symbols_embedding_dim;
          Hps.text_cleaners := ["english_cleaners"%string] |};
     get_mask_from_lengths := padding_mask;
     text_to_sequence := char_ids;
     new_Encoder := the_encoder;
     new_Decoder := the_decoder;
     new_Postnet := the_postnet;
     scalar_add := PrimFloat.add;
     long_of_float := fun _ => 0%Z;
     uniform_ := fun sh lo hi =>
       if PrimFloat.leb lo hi
          && PrimFloat.leb (to_float32 lo) (to_float32 hi)
       then Ok (float32_weights sh lo hi)
       else Raise RuntimeError |}.

(** The model that [__init__] builds from these. *)
Definition model (mask_padding : bool) : Tacotron2 :=
  {| num_mels := 2;
     mask_padding := mask_padding;
     n_frames_per_step := 2;
     embedding :=
       sample_weights [2; 1] (- uniform_bound 2 1)%float (uniform_bound 2 1);
     encoder := the_encoder;
     decoder := the_decoder;
     postnet := the_postnet |}.

(** Two utterances of three symbols; four mel frames, of which the second
    utterance fills two. *)
Definition text_padded : tensor Z := Tensor.mk [2; 3] [0; 1; 1; 1; 0; 0]%Z.
Definition input_lengths : tensor Z := Tensor.mk [2] [3; 3]%Z.
Definition mel_padded : tensor float :=
  build [2; 2; 4] (fun idx => float_of_nat (S (offset [2; 2; 4] idx))).
Definition gate_padded : tensor float :=
  Tensor.mk [2; 4] [0; 0; 0; 1; 0; 1; 0; 0]%float.
Definition output_lengths : tensor Z := Tensor.mk [2] [4; 2]%Z.

Definition the_batch : batch :=
  (LongT text_padded, LongT input_lengths, FloatT mel_padded,
   FloatT gate_padded, LongT output_lengths).

Definition the_inputs : model_inputs :=
  (text_padded, input_lengths, mel_padded, 3%Z, output_lengths).

(** What the teacher-forced pass computes on the way: the embedded symbols,
    before and after the transposition, and the outputs of the decoder and
    the postnet. *)
Definition the_looked_up : tensor float :=
  Eval vm_compute in
    match Torch.embedding_lookup (embedding (model true)) text_padded with
    | Ok e => e
    | Raise _ => Tensor.mk [] []
    end.

Definition the_embedded : tensor float :=
  Eval vm_compute in
    match Torch.transpose 0%float the_looked_up 1 2 with
    | Ok e => e
    | Raise _ => Tensor.mk [] []
    end.

Definition the_gate : tensor float := build [2; 2] (fun _ => 0.5%float).

Definition the_alignments : tensor float :=
  build [2; 2; 3] (fun _ => 0.25%float).

Definition the_post : tensor float := const_like 1%float mel_padded.

(** Four tensor objects as a pass hands them to [parse_output]: raw and
    post-processed mel, gate energies, alignments. *)
Definition the_heap : heap :=
  [mel_padded;
   tmap (fun x => (x + 1)%float) mel_padded;
   the_gate;
   the_alignments].

Definition the_outputs : list loc := [0; 1; 2; 3].

(** The mask of [output_lengths]. *)
Definition the_mask : tensor bool :=
  Eval vm_compute in
    match padding_mask output_lengths true with
    | Ok m => m
    | Raise _ => Tensor.mk [] []
    end.

(** The heap after [parse_output] has masked them by [output_lengths]. *)
Definition the_masked_heap : heap :=
  Eval vm_compute in
    match
      parse_output (model true) (env true) the_heap the_outputs
        (Some output_lengths)
    with
    | Ok (h, _) => h
    | Raise _ => []
    end.

End Sample.

(** ** Vocabulary of the statements *)

(** The tensor object at [l] is a dense tensor of shape [sh]. *)
Definition has_shape (h : heap) (l : loc) (sh : list nat) : Prop :=
  exists x, read h l = Some x /\ shape x = sh /\ wf x.

(** Modelled from the spec: [utils.util.get_mask_from_lengths], the
    "length-to-mask collaborator producing boolean padding masks from length
    vectors", is not part of this file.  [m] is such a mask for [lengths]
    over [b] items and [t] time steps (the source notes its shape, [(B, T)]):
    it is true on the valid steps, those before the item's length, so that
    its negation marks the padded ones. *)
Definition padding_mask_of (lengths : tensor Z) (m : tensor bool) (b t : nat)
  : Prop :=
  shape m = [b; t]
  /\ forall i k len,
       i < b -> k < t -> get lengths [i] = Some len ->
       get m [i; k] = Some (Z.of_nat k <? len)%Z.

(** [lo <= x <= hi] on floats. *)
Definition between (lo hi x : float) : Prop :=
  PrimFloat.leb lo x = true /\ PrimFloat.leb x hi = true.

(** The contract of the tensor library's sampler on a 32-bit floating
    tensor: [t.uniform_(lo, hi)] takes its two bounds into the dtype of [t];
    for [lo <= hi], and the bounds still in this order there, it returns,
    keeps the shape of [t] and fills it with values from the one bound to the
    other, as the dtype has them. *)
Definition sampler_in_float32_range (E : Env) : Prop :=
  forall sh lo hi,
    PrimFloat.leb lo hi = true ->
    PrimFloat.leb (to_float32 lo) (to_float32 hi) = true ->
    exists t,
      uniform_ E sh lo hi = Ok t
      /\ shape t = sh /\ wf t
      /\ Forall (between (to_float32 lo) (to_float32 hi)) (data t).

(** [t.long()] of a batch tensor [t]: an integer tensor as it is, a floating
    one element by element through the library's conversion. *)
Inductive long_of (E : Env) : any_tensor -> tensor Z -> Prop :=
| long_of_LongT t : long_of E (LongT t) t
| long_of_FloatT t :
    long_of E (FloatT t)
      (Tensor.mk (shape t) (map (long_of_float E) (data t)))
| long_of_DoubleT t :
    long_of E (DoubleT t)
      (Tensor.mk (shape t) (map (long_of_float E) (data t))).

(** [t.float()] of a batch tensor [t]: a floating tensor of at most 32 bits
    as it is, a 64-bit one rounded element by element, an integer one
    converted element by element. *)
Inductive float_of : any_tensor -> tensor float -> Prop :=
| float_of_LongT t :
    float_of (LongT t) (Tensor.mk (shape t) (map float32_of_long (data t)))
| float_of_FloatT t : float_of (FloatT t) t
| float_of_DoubleT t :
    float_of (DoubleT t) (Tensor.mk (shape t) (map to_float32 (data t))).

(** Modelled from the spec: [model.Decoder] is not part of this file.  Of
    what it returns the spec says: the mel output is a "tensor shaped (batch,
    mel-channels, time); time axis padded to the batch maximum", and the gate
    output a "per-frame-group scalar", of shape "(batch, max-output-length /
    frames-per-step)". *)
Definition decoder_output_shapes (self : Tacotron2) (b t : nat) (r : decoded)
  : Prop :=
  let '(mel, gate, _) := r in
  shape mel = [b; num_mels self; t] /\ wf mel
  /\ shape gate = [b; t / n_frames_per_step self] /\ wf gate.

(** Modelled from the spec: [model.Postnet] is not part of this file; it is a
    "residual refinement network added to raw decoder mel output", so what it
    returns has the shape of its argument. *)
Definition postnet_output_shape (mel post : tensor float) : Prop :=
  shape post = shape mel.

(** The model with its padding-mask flag set to [flag]. *)
Definition set_mask_padding (self : Tacotron2) (flag : bool) : Tacotron2 :=
  {| num_mels := num_mels self;
     mask_padding := flag;
     n_frames_per_step := n_frames_per_step self;
     embedding := embedding self;
     encoder := encoder self;
     decoder := decoder self;
     postnet := postnet self |}.

(** What a fill writes at a position: [v] where the mask holds. *)
Definition fill (mask : tensor bool) (v : float) (idx : list nat) (y : float)
  : float :=
  if get_or false mask idx then v else y.

(** What a pass left at a position of one of its outputs is [0.0]. *)
Definition zero_at (r : result (heap * list loc)) (i : nat)
  (idx : list nat) : bool :=
  match r with
  | Ok (h, outputs) =>
      match nth_error outputs i with
      | Some l =>
          match read_at h l idx with
          | Some x => PrimFloat.eqb x 0
          | None => false
          end
      | None => false
      end
  | Raise _ => false
  end.

(** The element of a tensor at a position is [0.0]. *)
Definition tensor_zero_at (r : result (tensor float)) (idx : list nat)
  : bool :=
  match r with
  | Ok t =>
      match get t idx with
      | Some x => PrimFloat.eqb x 0
      | None => false
      end
  | Raise _ => false
  end.

(** The number of frame groups of [t] frames, [s] frames to a group: the
    length of [torch.arange(0, t, s)]. *)
Definition ceil_div (t s : nat) : nat := (t + s - 1) / s.

(** * Properties *)

Unset Implicit Arguments.

(** ** Positions and elements of dense tensors *)

Module TensorFacts.

Lemma in_bounds_cons n sh i idx :
  in_bounds (n :: sh) (i :: idx) = true <-> i < n /\ in_bounds sh idx = true.
Proof.
  simpl. rewrite andb_true_iff, Nat.ltb_lt. tauto.
Qed.

Lemma in_bounds_length sh : forall idx,
  in_bounds sh idx = true -> length idx = length sh.
Proof.
  induction sh as [|n sh IH]; intros [|i idx]; simpl; try discriminate; auto.
  rewrite andb_true_iff. intros [_ H]. f_equal. auto.
Qed.

Lemma offset_lt sh : forall idx,
  in_bounds sh idx = true -> offset sh idx < numel sh.
Proof.
  induction sh as [|n sh IH]; intros [|i idx] H; try discriminate.
  - simpl. lia.
  - apply in_bounds_cons in H. destruct H as [Hi H].
    specialize (IH _ H). simpl. fold (numel sh). nia.
Qed.

Lemma unravel_offset sh : forall idx,
  in_bounds sh idx = true -> unravel sh (offset sh idx) = idx.
Proof.
  induction sh as [|n sh IH]; intros [|i idx] H; try discriminate.
  - reflexivity.
  - apply in_bounds_cons in H. destruct H as [Hi H].
    pose proof (offset_lt _ _ H) as Hlt.
    simpl. f_equal.
    + rewrite Nat.div_add_l by lia. rewrite Nat.div_small by lia. lia.
    + rewrite Nat.add_comm, Nat.Div0.mod_add, Nat.mod_small by lia. auto.
Qed.

Lemma shape_build {A} sh (f : list nat -> A) : shape (build sh f) = sh.
Proof. reflexivity. Qed.

Lemma wf_build {A} sh (f : list nat -> A) : wf (build sh f).
Proof.
  unfold wf, build. simpl. now rewrite length_map, length_seq.
Qed.

Lemma get_build {A} sh (f : list nat -> A) idx :
  in_bounds sh idx = true -> get (build sh f) idx = Some (f idx).
Proof.
  intros H. unfold get, build. simpl. rewrite H.
  rewrite nth_error_map, nth_error_seq.
  pose proof (offset_lt _ _ H) as Hlt.
  apply Nat.ltb_lt in Hlt. rewrite Hlt. simpl.
  now rewrite unravel_offset.
Qed.

Lemma get_in_bounds {A} (t : tensor A) idx x :
  get t idx = Some x -> in_bounds (shape t) idx = true.
Proof.
  unfold get. destruct (in_bounds (shape t) idx); [auto | discriminate].
Qed.

Lemma get_wf {A} (t : tensor A) idx :
  wf t -> in_bounds (shape t) idx = true -> exists x, get t idx = Some x.
Proof.
  intros Hwf H. unfold get. rewrite H.
  pose proof (offset_lt _ _ H) as Hlt. rewrite <- Hwf in Hlt.
  destruct (nth_error (data t) (offset (shape t) idx)) eqn:E.
  - eauto.
  - apply nth_error_None in E. lia.
Qed.

Lemma length_mapi_from {A B} (f : nat -> A -> B) l : forall k,
  length (mapi_from k f l) = length l.
Proof.
  induction l as [|x l IH]; intros k; simpl; auto.
Qed.

Lemma nth_error_mapi_from {A B} (f : nat -> A -> B) l : forall k n,
  nth_error (mapi_from k f l) n = option_map (f (k + n)) (nth_error l n).
Proof.
  induction l as [|x l IH]; intros k [|n]; simpl; auto.
  - now rewrite Nat.add_0_r.
  - rewrite IH. now rewrite Nat.add_succ_r.
Qed.

Lemma shape_mapi {A B} (f : list nat -> A -> B) t : shape (mapi f t) = shape t.
Proof. reflexivity. Qed.

Lemma wf_mapi {A B} (f : list nat -> A -> B) t : wf t -> wf (mapi f t).
Proof.
  unfold wf, mapi. simpl. now rewrite length_mapi_from.
Qed.

Lemma get_mapi {A B} (f : list nat -> A -> B) t idx :
  get (mapi f t) idx = option_map (f idx) (get t idx).
Proof.
  unfold get, mapi. simpl.
  destruct (in_bounds (shape t) idx) eqn:H; [|reflexivity].
  rewrite nth_error_mapi_from. simpl. now rewrite unravel_offset.
Qed.

Lemma shape_tmap {A B} (f : A -> B) t : shape (tmap f t) = shape t.
Proof. reflexivity. Qed.

Lemma wf_tmap {A B} (f : A -> B) t : wf t -> wf (tmap f t).
Proof.
  unfold wf, tmap. simpl. now rewrite length_map.
Qed.

Lemma get_tmap {A B} (f : A -> B) t idx :
  get (tmap f t) idx = option_map f (get t idx).
Proof.
  unfold get, tmap. simpl.
  destruct (in_bounds (shape t) idx); [|reflexivity].
  apply nth_error_map.
Qed.

Lemma get_or_some {A} (d : A) t idx x :
  get t idx = Some x -> get_or d t idx = x.
Proof.
  unfold get_or. now intros ->.
Qed.

End TensorFacts.

Import TensorFacts.

(** ** The tensor operations on the shapes the model uses *)

Module TorchFacts.

Import Torch.

Lemma bind_Ok {A B} (a : A) (k : A -> result B) : bind (Ok a) k = k a.
Proof. reflexivity. Qed.

Lemma bcast_index_id sh : forall idx,
  in_bounds sh idx = true -> bcast_index sh idx = idx.
Proof.
  induction sh as [|n sh IH]; intros [|i idx] H; try discriminate; auto.
  apply in_bounds_cons in H. destruct H as [Hi H]. simpl.
  rewrite (IH _ H). destruct (Nat.eqb_spec n 1); [f_equal; lia | reflexivity].
Qed.

Lemma bidx_id sh idx : in_bounds sh idx = true -> bidx sh idx = idx.
Proof.
  intros H. unfold bidx. rewrite (in_bounds_length _ _ H), Nat.sub_diag.
  simpl. now apply bcast_index_id.
Qed.

Lemma bidx_cons sh i idx :
  in_bounds sh idx = true -> bidx sh (i :: idx) = idx.
Proof.
  intros H. unfold bidx. simpl length.
  rewrite (in_bounds_length _ _ H).
  replace (S (length sh) - length sh) with 1 by lia.
  simpl. now apply bcast_index_id.
Qed.

Lemma dims_ok_refl sh : dims_ok sh sh = true.
Proof.
  induction sh as [|n sh IH]; simpl; auto.
  unfold dim_ok. now rewrite Nat.eqb_refl, IH.
Qed.

Lemma broadcastable_to_refl sh : broadcastable_to sh sh = true.
Proof.
  unfold broadcastable_to. rewrite Nat.leb_refl, Nat.sub_diag. simpl.
  apply dims_ok_refl.
Qed.

Lemma broadcastable_to_cons n sh : broadcastable_to sh (n :: sh) = true.
Proof.
  unfold broadcastable_to. simpl length.
  replace (S (length sh) - length sh) with 1 by lia.
  simpl skipn. rewrite dims_ok_refl, andb_true_r.
  apply Nat.leb_le. lia.
Qed.

(** Filling through a mask of the tensor's own shape. *)
Lemma masked_fill_same_shape {A} (t : tensor A) mask v :
  shape mask = shape t ->
  exists t',
    masked_fill t mask v = Ok t'
    /\ shape t' = shape t
    /\ (wf t -> wf t')
    /\ forall idx,
         get t' idx
         = option_map (fun x => if get_or false mask idx then v else x)
             (get t idx).
Proof.
  intros Hs. unfold masked_fill. rewrite Hs, broadcastable_to_refl.
  eexists. split; [reflexivity|]. split; [reflexivity|].
  split; [apply wf_mapi|].
  intros idx. rewrite get_mapi.
  destruct (get t idx) as [x|] eqn:E; [|reflexivity].
  simpl. now rewrite (bidx_id _ _ (get_in_bounds _ _ _ E)).
Qed.

Lemma in_bounds2 n0 n1 i0 i1 :
  i0 < n0 -> i1 < n1 -> in_bounds [n0; n1] [i0; i1] = true.
Proof.
  intros H0 H1. simpl. apply Nat.ltb_lt in H0, H1. now rewrite H0, H1.
Qed.

Lemma in_bounds3 n0 n1 n2 i0 i1 i2 :
  i0 < n0 -> i1 < n1 -> i2 < n2 ->
  in_bounds [n0; n1; n2] [i0; i1; i2] = true.
Proof.
  intros H0 H1 H2. simpl. apply Nat.ltb_lt in H0, H1, H2.
  now rewrite H0, H1, H2.
Qed.

(** [mask.expand(c, mask.size(0), mask.size(1)).permute(1, 0, 2)] *)
Lemma expand_permute (m : tensor bool) b t c :
  shape m = [b; t] ->
  exists e mask,
    expand false m [c; b; t] = Ok e
    /\ permute false e [1; 0; 2] = Ok mask
    /\ shape mask = [b; c; t]
    /\ forall i j k, i < b -> j < c -> k < t ->
         get mask [i; j; k] = Some (get_or false m [i; k]).
Proof.
  intros Hs. unfold expand. rewrite Hs, broadcastable_to_cons.
  eexists. eexists. split; [reflexivity|].
  unfold permute. simpl. split; [reflexivity|]. split; [reflexivity|].
  intros i j k Hi Hj Hk.
  rewrite get_build by (now apply in_bounds3). simpl.
  unfold get_or at 1.
  rewrite get_build by (now apply in_bounds3).
  now rewrite bidx_cons by (now apply in_bounds2).
Qed.

Lemma ceil_div_lt t s k : 0 < s -> (k < ceil_div t s <-> k * s < t).
Proof.
  intros Hs. unfold ceil_div.
  pose proof (Nat.div_mod_eq (t + s - 1) s) as E.
  pose proof (Nat.mod_upper_bound (t + s - 1) s ltac:(lia)) as Hm.
  split; intros H; nia.
Qed.

Lemma ceil_div_exact t s : 0 < s -> t mod s = 0 -> ceil_div t s = t / s.
Proof.
  intros Hs Hm. unfold ceil_div.
  pose proof (Nat.div_mod_eq t s) as E. rewrite Hm in E.
  symmetry. apply Nat.div_unique with (r := s - 1); [lia | nia].
Qed.

Lemma arange_spec stop step :
  0 < step ->
  exists l,
    arange stop step = Ok l
    /\ length l = ceil_div stop step
    /\ (forall k, k * step < stop -> nth k l 0 = k * step)
    /\ forallb (fun i => i <? stop) l = true.
Proof.
  intros Hs. unfold arange.
  destruct (Nat.eqb_spec step 0); [lia|].
  fold (ceil_div stop step).
  eexists. split; [reflexivity|].
  split; [now rewrite length_map, length_seq|]. split.
  - intros k Hk. apply (ceil_div_lt stop step k Hs) in Hk.
    rewrite (nth_indep _ 0 (0 * step))
      by (now rewrite length_map, length_seq).
    rewrite (map_nth (fun k => k * step)), seq_nth by assumption.
    reflexivity.
  - apply forallb_forall. intros x Hx.
    apply in_map_iff in Hx. destruct Hx as (k & <- & Hk).
    apply in_seq in Hk. apply Nat.ltb_lt.
    apply (ceil_div_lt stop step k Hs). lia.
Qed.

(** [mask[:, 0, slice]] *)
Lemma getitem_slice_int_index_spec (mask : tensor bool) b c t slice :
  shape mask = [b; c; t] -> 0 < c ->
  forallb (fun i => i <? t) slice = true ->
  exists g,
    getitem_slice_int_index false mask 0 slice = Ok g
    /\ shape g = [b; length slice]
    /\ forall i k, i < b -> k < length slice ->
         get g [i; k] = Some (get_or false mask [i; 0; nth k slice 0]).
Proof.
  intros Hs Hc Hall. unfold getitem_slice_int_index. rewrite Hs, Hall.
  apply Nat.ltb_lt in Hc. rewrite Hc. simpl.
  eexists. split; [reflexivity|]. split; [reflexivity|].
  intros i k Hi Hk. now rewrite get_build by (now apply in_bounds2).
Qed.

End TorchFacts.

Import TorchFacts.

(** ** The heap *)

Module HeapFacts.

Lemma read_write_same (h : heap) l t x :
  read h l = Some x -> read (write h l t) l = Some t.
Proof.
  unfold read. revert l. induction h as [|y h IH]; intros [|l] H;
    simpl in *; try discriminate; auto.
Qed.

Lemma read_write_other (h : heap) l l' t :
  l' <> l -> read (write h l t) l' = read h l'.
Proof.
  unfold read. revert l l'.
  induction h as [|y h IH]; intros [|l] [|l'] H; simpl; auto;
    try congruence.
Qed.

Lemma read_alloc_old (h : heap) t l :
  l < length h -> read (fst (alloc h t)) l = read h l.
Proof.
  intros H. unfold read, alloc. simpl. now apply nth_error_app1.
Qed.

Lemma read_alloc_new (h : heap) t :
  read (fst (alloc h t)) (snd (alloc h t)) = Some t.
Proof.
  unfold read, alloc. simpl.
  rewrite nth_error_app2 by lia. now rewrite Nat.sub_diag.
Qed.

(** One in-place fill: the object at [l] is rewritten where the mask holds,
    every other object is left alone. *)
Lemma masked_fill__step h l mask v sh :
  has_shape h l sh -> shape mask = sh ->
  exists h' x x',
    masked_fill_ h l mask v = Ok h'
    /\ (forall l', l' <> l -> read h' l' = read h l')
    /\ read h l = Some x /\ read h' l = Some x'
    /\ shape x' = sh /\ wf x'
    /\ forall idx,
         get x' idx
         = option_map (fun y => if get_or false mask idx then v else y)
             (get x idx).
Proof.
  intros (x & Hr & Hs & Hwf) Hm.
  destruct (masked_fill_same_shape x mask v) as (x' & Hf & Hs' & Hwf' & Hg).
  { congruence. }
  exists (write h l x'), x, x'.
  split; [unfold masked_fill_; now rewrite Hr, Hf|].
  split; [intros l' Hl; now apply read_write_other|].
  split; [assumption|].
  split; [now apply read_write_same with (x := x)|].
  split; [congruence|]. split; [auto|]. exact Hg.
Qed.

End HeapFacts.

Import HeapFacts.

(** ** parse_output *)

Module ParseOutput.

Import Torch.

Lemma fill_idem mask v idx (o : option float) :
  option_map (fill mask v idx) (option_map (fill mask v idx) o)
  = option_map (fill mask v idx) o.
Proof.
  destruct o as [y|]; [|reflexivity]. simpl. unfold fill.
  now destruct (get_or false mask idx).
Qed.

Lemma has_shape_inj h l sh sh' :
  has_shape h l sh -> has_shape h l sh' -> sh = sh'.
Proof.
  intros (x & Hx & Hs & _) (x' & Hx' & Hs' & _). congruence.
Qed.

Lemma has_shape_read_at h l sh idx :
  has_shape h l sh -> in_bounds sh idx = true ->
  exists y, read_at h l idx = Some y.
Proof.
  intros (x & Hx & Hs & Hwf) Hb. unfold read_at. rewrite Hx.
  apply get_wf; [assumption | now rewrite Hs].
Qed.

(** [masked_fill_] seen from the references: shapes stay, the object at [l]
    is filled, the others are not touched. *)
Lemma fill_step h l mask v sh :
  has_shape h l sh -> shape mask = sh ->
  exists h',
    masked_fill_ h l mask v = Ok h'
    /\ (forall l' sh', has_shape h l' sh' -> has_shape h' l' sh')
    /\ (forall l', l' <> l -> read h' l' = read h l')
    /\ forall idx,
         read_at h' l idx = option_map (fill mask v idx) (read_at h l idx).
Proof.
  intros Hsh Hm.
  destruct (masked_fill__step h l mask v sh Hsh Hm)
    as (h' & x & x' & Hrun & Hother & Hx & Hx' & Hs' & Hwf' & Hg).
  exists h'. split; [assumption|]. split; [|split; [assumption|]].
  - intros l' sh' Hl'. destruct (Nat.eq_dec l' l) as [->|Hne].
    + rewrite <- (has_shape_inj _ _ _ _ Hsh Hl'). now exists x'.
    + destruct Hl' as (y & Hy & Hys). exists y.
      now rewrite (Hother _ Hne).
  - intros idx. unfold read_at. rewrite Hx, Hx'. apply Hg.
Qed.

Lemma read_at_other h h' l idx :
  read h' l = read h l -> read_at h' l idx = read_at h l idx.
Proof.
  unfold read_at. now intros ->.
Qed.

(** The run of [parse_output] when it masks: on tensors of the mask's
    shape it returns, and what each of the three objects holds afterwards is
    the fill of what it held before. *)
Lemma parse_output_run self E h outputs lengths m b t l0 l1 l2 :
  mask_padding self = true ->
  get_mask_from_lengths E lengths true = Ok m ->
  shape m = [b; t] ->
  0 < num_mels self -> 0 < n_frames_per_step self ->
  nth_error outputs 0 = Some l0 ->
  nth_error outputs 1 = Some l1 ->
  nth_error outputs 2 = Some l2 ->
  has_shape h l0 [b; num_mels self; t] ->
  has_shape h l1 [b; num_mels self; t] ->
  has_shape h l2 [b; ceil_div t (n_frames_per_step self)] ->
  exists h' mask gate_mask,
    parse_output self E h outputs (Some lengths) = Ok (h', outputs)
    /\ (forall i j k v, i < b -> j < num_mels self -> k < t ->
          get m [i; k] = Some v -> get_or false mask [i; j; k] = negb v)
    /\ (forall i g v, i < b -> g * n_frames_per_step self < t ->
          get m [i; g * n_frames_per_step self] = Some v ->
          get_or false gate_mask [i; g] = negb v)
    /\ (forall l, l <> l0 -> l <> l1 -> l <> l2 -> read h' l = read h l)
    /\ (forall l sh, has_shape h l sh -> has_shape h' l sh)
    /\ (forall idx,
          read_at h' l0 idx = option_map (fill mask 0 idx) (read_at h l0 idx))
    /\ (forall idx,
          read_at h' l1 idx = option_map (fill mask 0 idx) (read_at h l1 idx))
    /\ (forall idx,
          read_at h' l2 idx
          = option_map (fill gate_mask 1e3 idx) (read_at h l2 idx)).
Proof.
  intros Hflag Hm Hs Hc Hstep H0 H1 H2 Hl0 Hl1 Hl2.
  set (c := num_mels self) in *. set (s := n_frames_per_step self) in *.
  assert (Hne02 : l0 <> l2).
  { intros ->. pose proof (has_shape_inj _ _ _ _ Hl0 Hl2). discriminate. }
  assert (Hne12 : l1 <> l2).
  { intros ->. pose proof (has_shape_inj _ _ _ _ Hl1 Hl2). discriminate. }
  destruct (expand_permute (logical_not m) b t c)
    as (e & mask & He & Hp & Hmask & Hget); [exact Hs|].
  destruct (arange_spec t s Hstep) as (slice & Har & Hlen & Hnth & Hall).
  destruct (getitem_slice_int_index_spec mask b c t slice Hmask Hc Hall)
    as (gm & Hgm & Hgs & Hgg).
  rewrite Hlen in Hgs.
  destruct (fill_step h l0 mask 0%float _ Hl0 Hmask)
    as (h1 & Hrun1 & Hsh1 & Hoth1 & Hat1).
  destruct (fill_step h1 l1 mask 0%float _ (Hsh1 _ _ Hl1) Hmask)
    as (h2 & Hrun2 & Hsh2 & Hoth2 & Hat2).
  destruct (fill_step h2 l2 gm 1e3%float _ (Hsh2 _ _ (Hsh1 _ _ Hl2)) Hgs)
    as (h3 & Hrun3 & Hsh3 & Hoth3 & Hat3).
  exists h3, mask, gm. split; [|split; [|split; [|split; [|split; [|split; [|split]]]]]].
  - unfold parse_output. rewrite Hflag, Hm. cbn [bind].
    unfold size. change (shape (logical_not m)) with (shape m).
    rewrite Hs. cbn [nth_error bind].
    fold c. rewrite He. cbn [bind]. rewrite Hp. cbn [bind].
    unfold getitem. rewrite H0, H1, H2. cbn [bind].
    rewrite Hrun1. cbn [bind]. rewrite Hrun2. cbn [bind].
    rewrite Hmask. cbn [nth_error bind]. fold s. rewrite Har. cbn [bind].
    rewrite Hgm. cbn [bind]. rewrite Hrun3. reflexivity.
  - intros i j k v Hi Hj Hk Hv. unfold get_or at 1.
    rewrite (Hget i j k Hi Hj Hk). unfold get_or, logical_not.
    now rewrite get_tmap, Hv.
  - intros i g v Hi Hg Hv.
    assert (Hg' : g < length slice) by (rewrite Hlen; now apply ceil_div_lt).
    unfold get_or at 1. rewrite (Hgg i g Hi Hg'), (Hnth g Hg).
    assert (H0c : 0 < c) by exact Hc.
    unfold get_or at 1. rewrite (Hget i 0 (g * s) Hi H0c Hg).
    unfold get_or, logical_not.
    now rewrite get_tmap, Hv.
  - intros l Hn0 Hn1 Hn2.
    now rewrite (Hoth3 _ Hn2), (Hoth2 _ Hn1), (Hoth1 _ Hn0).
  - intros l sh Hl. auto.
  - intros idx.
    rewrite (read_at_other _ _ _ _ (Hoth3 _ Hne02)).
    destruct (Nat.eq_dec l0 l1) as [Heq|Hne].
    + rewrite Heq. rewrite Hat2. rewrite <- Heq. rewrite Hat1.
      apply fill_idem.
    + rewrite (read_at_other _ _ _ _ (Hoth2 _ Hne)). apply Hat1.
  - intros idx.
    rewrite (read_at_other _ _ _ _ (Hoth3 _ Hne12)). rewrite Hat2.
    destruct (Nat.eq_dec l1 l0) as [Heq|Hne].
    + rewrite Heq. rewrite Hat1. apply fill_idem.
    + now rewrite (read_at_other _ _ _ _ (Hoth1 _ Hne)).
  - intros idx. rewrite Hat3.
    rewrite (read_at_other _ _ _ _ (Hoth2 _ (not_eq_sym Hne12))).
    now rewrite (read_at_other _ _ _ _ (Hoth1 _ (not_eq_sym Hne02))).
Qed.

End ParseOutput.

Import ParseOutput.

(** ** Masking by length *)

Lemma masked_fill__frame h l mask v h' :
  masked_fill_ h l mask v = Ok h' ->
  forall l', l' <> l -> read h' l' = read h l'.
Proof.
  unfold masked_fill_. destruct (read h l) as [x|]; [|discriminate].
  destruct (Torch.masked_fill x mask v) as [x'|]; [|discriminate].
  cbn [bind]. intros [= <-] l' Hl. now apply read_write_other.
Qed.

(** C1. When the padding-mask flag is on and the lengths are supplied,
    [parse_output] returns and, for each item of valid length [len], every
    raw-mel and postnet-mel value at a time position [k >= len] is exactly
    [0.0], and the gate value of every frame group whose first frame
    [g * n_frames_per_step] is at or beyond [len] is the literal [1e3]. *)
Theorem parse_output_masks_padding
  self E h outputs lengths m b t l0 l1 l2 :
  mask_padding self = true ->
  get_mask_from_lengths E lengths true = Ok m ->
  padding_mask_of lengths m b t ->
  0 < num_mels self -> 0 < n_frames_per_step self ->
  nth_error outputs 0 = Some l0 ->
  nth_error outputs 1 = Some l1 ->
  nth_error outputs 2 = Some l2 ->
  has_shape h l0 [b; num_mels self; t] ->
  has_shape h l1 [b; num_mels self; t] ->
  has_shape h l2 [b; ceil_div t (n_frames_per_step self)] ->
  exists h',
    parse_output self E h outputs (Some lengths) = Ok (h', outputs)
    /\ forall i len,
         i < b -> get lengths [i] = Some len ->
         (forall j k,
            j < num_mels self -> k < t -> (len <= Z.of_nat k)%Z ->
            read_at h' l0 [i; j; k] = Some 0%float
            /\ read_at h' l1 [i; j; k] = Some 0%float)
         /\ (forall g,
               g * n_frames_per_step self < t ->
               (len <= Z.of_nat (g * n_frames_per_step self))%Z ->
               read_at h' l2 [i; g] = Some 1e3%float).
Proof.
  intros Hflag Hm [Hs Hmask] Hc Hstep H0 H1 H2 Hl0 Hl1 Hl2.
  destruct (parse_output_run self E h outputs lengths m b t l0 l1 l2)
    as (h' & mask & gm & Hrun & Hm3 & Hg & _ & _ & Hat0 & Hat1 & Hat2);
    try assumption.
  exists h'. split; [exact Hrun|].
  intros i len Hi Hlen. split.
  - intros j k Hj Hk Hle.
    pose proof (Hm3 i j k _ Hi Hj Hk (Hmask i k len Hi Hk Hlen)) as Hv.
    apply Z.ltb_ge in Hle. rewrite Hle in Hv. simpl in Hv.
    pose proof (TorchFacts.in_bounds3 _ _ _ _ _ _ Hi Hj Hk) as Hb.
    destruct (has_shape_read_at _ _ _ _ Hl0 Hb) as (y0 & Hy0).
    destruct (has_shape_read_at _ _ _ _ Hl1 Hb) as (y1 & Hy1).
    rewrite Hat0, Hat1, Hy0, Hy1. unfold fill. simpl. now rewrite Hv.
  - intros g Hg1 Hle.
    pose proof (Hg i g _ Hi Hg1 (Hmask i _ len Hi Hg1 Hlen)) as Hv.
    apply Z.ltb_ge in Hle. rewrite Hle in Hv. simpl in Hv.
    assert (Hb : in_bounds [b; ceil_div t (n_frames_per_step self)] [i; g]
                 = true).
    { apply TorchFacts.in_bounds2; [assumption | now apply ceil_div_lt]. }
    destruct (has_shape_read_at _ _ _ _ Hl2 Hb) as (y & Hy).
    rewrite Hat2, Hy. unfold fill. simpl. now rewrite Hv.
Qed.

(** C2. When the padding-mask flag is off or no lengths are given,
    [parse_output] returns the list it was given and leaves every tensor
    object as it was. *)
Theorem parse_output_identity self E h outputs output_lengths :
  mask_padding self = false \/ output_lengths = None ->
  parse_output self E h outputs output_lengths = Ok (h, outputs).
Proof.
  unfold parse_output. intros [H|H]; rewrite H.
  - reflexivity.
  - now destruct (mask_padding self).
Qed.

(** C10. Whenever [parse_output] returns, the list it returns is the list it
    was given, so the tensors are rewritten in place behind the caller's
    references; the only objects it writes are those of the first three
    elements; the fourth element is the reference it was, and the alignment
    object behind it, being none of the first three, holds what it held. *)
Theorem parse_output_frame self E h outputs output_lengths h' outputs' :
  parse_output self E h outputs output_lengths = Ok (h', outputs') ->
  outputs' = outputs
  /\ (forall l,
        nth_error outputs 0 <> Some l ->
        nth_error outputs 1 <> Some l ->
        nth_error outputs 2 <> Some l ->
        read h' l = read h l)
  /\ nth_error outputs' 3 = nth_error outputs 3
  /\ forall l3,
       nth_error outputs 3 = Some l3 ->
       nth_error outputs 0 <> Some l3 ->
       nth_error outputs 1 <> Some l3 ->
       nth_error outputs 2 <> Some l3 ->
       read h' l3 = read h l3.
Proof.
  intros Hrun.
  assert (Hkey : outputs' = outputs
                 /\ forall l,
                      nth_error outputs 0 <> Some l ->
                      nth_error outputs 1 <> Some l ->
                      nth_error outputs 2 <> Some l ->
                      read h' l = read h l).
  { unfold parse_output in Hrun.
    destruct (mask_padding self);
      [destruct output_lengths as [lengths|]|];
      try (injection Hrun as <- <-; now split).
    destruct (get_mask_from_lengths E lengths true) as [m|]; [|discriminate].
    cbn [bind] in Hrun.
    destruct (size (Torch.logical_not m) 0) as [s0|]; [|discriminate].
    cbn [bind] in Hrun.
    destruct (size (Torch.logical_not m) 1) as [s1|]; [|discriminate].
    cbn [bind] in Hrun.
    destruct (Torch.expand _ _ _) as [e|]; [|discriminate].
    cbn [bind] in Hrun.
    destruct (Torch.permute _ _ _) as [mask|]; [|discriminate].
    cbn [bind] in Hrun. unfold getitem in Hrun.
    destruct (nth_error outputs 0) as [l0|]; [|discriminate].
    cbn [bind] in Hrun.
    destruct (masked_fill_ h l0 mask 0) as [h1|] eqn:E1; [|discriminate].
    cbn [bind] in Hrun.
    destruct (nth_error outputs 1) as [l1|]; [|discriminate].
    cbn [bind] in Hrun.
    destruct (masked_fill_ h1 l1 mask 0) as [h2|] eqn:E2; [|discriminate].
    cbn [bind] in Hrun.
    destruct (size mask 2) as [s2|]; [|discriminate].
    cbn [bind] in Hrun.
    destruct (Torch.arange _ _) as [slice|]; [|discriminate].
    cbn [bind] in Hrun.
    destruct (nth_error outputs 2) as [l2|]; [|discriminate].
    cbn [bind] in Hrun.
    destruct (Torch.getitem_slice_int_index _ _ _ _) as [gm|];
      [|discriminate].
    cbn [bind] in Hrun.
    destruct (masked_fill_ h2 l2 gm 1e3) as [h3|] eqn:E3; [|discriminate].
    cbn [bind] in Hrun. injection Hrun as <- <-.
    split; [reflexivity|]. intros l Hn0 Hn1 Hn2.
    rewrite (masked_fill__frame _ _ _ _ _ E3) by congruence.
    rewrite (masked_fill__frame _ _ _ _ _ E2) by congruence.
    apply (masked_fill__frame _ _ _ _ _ E1). congruence. }
  destruct Hkey as [-> Hframe].
  split; [reflexivity|]. split; [exact Hframe|]. split; [reflexivity|].
  intros l3 _. apply Hframe.
Qed.

Lemma sample_padding_mask :
  padding_mask_of Sample.output_lengths Sample.the_mask 2 4.
Proof.
  split; [reflexivity|].
  intros i k len Hi Hk Hlen.
  destruct i as [|[|i]]; [| |lia];
    (destruct k as [|[|[|[|k]]]]; [| | | |lia]);
    vm_compute in Hlen; injection Hlen as <-; reflexivity.
Qed.

Lemma sample_has_shape l sh :
  match read Sample.the_heap l with
  | Some x => shape x = sh /\ wf x
  | None => False
  end ->
  has_shape Sample.the_heap l sh.
Proof.
  destruct (read Sample.the_heap l) as [x|] eqn:E; [|tauto].
  intros [Hs Hw]. now exists x.
Qed.

Lemma parse_output_masks_padding_witness :
  exists h',
    parse_output (Sample.model true) (Sample.env true) Sample.the_heap
      Sample.the_outputs (Some Sample.output_lengths)
    = Ok (h', Sample.the_outputs)
    /\ forall i len,
         i < 2 -> get Sample.output_lengths [i] = Some len ->
         (forall j k,
            j < 2 -> k < 4 -> (len <= Z.of_nat k)%Z ->
            read_at h' 0 [i; j; k] = Some 0%float
            /\ read_at h' 1 [i; j; k] = Some 0%float)
         /\ (forall g,
               g * 2 < 4 -> (len <= Z.of_nat (g * 2))%Z ->
               read_at h' 2 [i; g] = Some 1e3%float).
Proof.
  apply (parse_output_masks_padding (Sample.model true) (Sample.env true)
           Sample.the_heap Sample.the_outputs Sample.output_lengths
           Sample.the_mask 2 4 0 1 2).
  - reflexivity.
  - reflexivity.
  - exact sample_padding_mask.
  - simpl; lia.
  - simpl; lia.
  - reflexivity.
  - reflexivity.
  - reflexivity.
  - apply sample_has_shape. split; reflexivity.
  - apply sample_has_shape. split; reflexivity.
  - apply sample_has_shape. split; reflexivity.
Defined.

Lemma parse_output_identity_witness :
  parse_output (Sample.model false) (Sample.env false) Sample.the_heap
    Sample.the_outputs (Some Sample.output_lengths)
  = Ok (Sample.the_heap, Sample.the_outputs)
  /\ parse_output (Sample.model true) (Sample.env true) Sample.the_heap
       Sample.the_outputs None
     = Ok (Sample.the_heap, Sample.the_outputs).
Proof.
  split.
  - apply parse_output_identity. left. reflexivity.
  - apply parse_output_identity. right. reflexivity.
Defined.

Lemma parse_output_frame_witness :
  Sample.the_outputs = Sample.the_outputs
  /\ (forall l,
        nth_error Sample.the_outputs 0 <> Some l ->
        nth_error Sample.the_outputs 1 <> Some l ->
        nth_error Sample.the_outputs 2 <> Some l ->
        read Sample.the_masked_heap l = read Sample.the_heap l)
  /\ nth_error Sample.the_outputs 3 = nth_error Sample.the_outputs 3
  /\ forall l3,
       nth_error Sample.the_outputs 3 = Some l3 ->
       nth_error Sample.the_outputs 0 <> Some l3 ->
       nth_error Sample.the_outputs 1 <> Some l3 ->
       nth_error Sample.the_outputs 2 <> Some l3 ->
       read Sample.the_masked_heap l3 = read Sample.the_heap l3.
Proof.
  apply (parse_output_frame (Sample.model true) (Sample.env true)
           Sample.the_heap Sample.the_outputs (Some Sample.output_lengths)).
  vm_compute. reflexivity.
Defined.

(** ** The passes *)

Lemma alloc_outputs_eq h a b c d :
  alloc_outputs h a b c d
  = (h ++ [a; b; c; d],
     [length h; S (length h); S (S (length h)); S (S (S (length h)))]).
Proof.
  unfold alloc_outputs, alloc.
  rewrite !length_app. simpl length. rewrite <- !app_assoc. simpl app.
  repeat f_equal; lia.
Qed.

Lemma inference_run
  self E h inputs e embedded encoded mel gate align post sum :
  Torch.embedding_lookup (embedding self) inputs = Ok e ->
  Torch.transpose 0%float e 1 2 = Ok embedded ->
  encoder_inference (encoder self) embedded = Ok encoded ->
  decoder_inference (decoder self) encoded = Ok (mel, gate, align) ->
  postnet self mel = Ok post ->
  tensor_add E mel post = Ok sum ->
  inference self E h inputs
  = Ok (h ++ [mel; sum; gate; align],
        [length h; S (length h); S (S (length h)); S (S (S (length h)))]).
Proof.
  intros He Ht Henc Hdec Hpost Hsum. unfold inference.
  rewrite He. cbn [bind]. rewrite Ht. cbn [bind]. rewrite Henc. cbn [bind].
  rewrite Hdec. cbn [bind]. rewrite Hpost. cbn [bind].
  rewrite Hsum. cbn [bind]. rewrite alloc_outputs_eq.
  unfold parse_output. now destruct (mask_padding self).
Qed.

(** C6. [inference] hands back the four tensors exactly as the decoder and
    the postnet produced them, [mel_outputs + postnet(mel_outputs)] in second
    place, as new objects, and it does so whatever the padding-mask flag of
    the model is set to: no length masking takes place. *)
Theorem inference_applies_no_masking
  self E h inputs e embedded encoded mel gate align post sum :
  Torch.embedding_lookup (embedding self) inputs = Ok e ->
  Torch.transpose 0%float e 1 2 = Ok embedded ->
  encoder_inference (encoder self) embedded = Ok encoded ->
  decoder_inference (decoder self) encoded = Ok (mel, gate, align) ->
  postnet self mel = Ok post ->
  tensor_add E mel post = Ok sum ->
  forall flag,
    inference (set_mask_padding self flag) E h inputs
    = Ok (h ++ [mel; sum; gate; align],
          [length h; S (length h); S (S (length h)); S (S (S (length h)))]).
Proof.
  intros He Ht Henc Hdec Hpost Hsum flag.
  now apply (inference_run (set_mask_padding self flag) E h inputs e
               embedded encoded mel gate align post sum).
Qed.

Lemma inference_applies_no_masking_witness :
  exists mel sum gate align,
    forall flag,
      inference (set_mask_padding (Sample.model true) flag)
        (Sample.env true) [] Sample.text_padded
      = Ok ([] ++ [mel; sum; gate; align], [0; 1; 2; 3]).
Proof.
  do 4 eexists.
  eapply (inference_applies_no_masking (Sample.model true) (Sample.env true)
            [] Sample.text_padded).
  - vm_compute. reflexivity.
  - vm_compute. reflexivity.
  - vm_compute. reflexivity.
  - vm_compute. reflexivity.
  - vm_compute. reflexivity.
  - vm_compute. reflexivity.
Defined.

Lemma int_tensor_check_ok l :
  forallb Torch.int32_ok l = true -> Torch.int_tensor_check l = Ok tt.
Proof.
  induction l as [|x l IH]; simpl; [reflexivity|].
  rewrite andb_true_iff. intros [-> H]. auto.
Qed.

(** C5. [infer] turns the text into a sequence of symbol IDs, makes a batch
    of one row of it, runs [inference] and returns the triple of the first,
    second and fourth of its outputs: the gate is dropped.  It returns
    whenever the collaborators do; the sequence may be empty. *)
Theorem infer_returns_triple
  self E h text sequence e embedded encoded mel gate align post sum :
  text_to_sequence E text (Hps.text_cleaners (hps E)) = Ok sequence ->
  forallb Torch.int32_ok sequence = true ->
  Torch.embedding_lookup (embedding self)
    (Tensor.mk [1; length sequence] sequence) = Ok e ->
  Torch.transpose 0%float e 1 2 = Ok embedded ->
  encoder_inference (encoder self) embedded = Ok encoded ->
  decoder_inference (decoder self) encoded = Ok (mel, gate, align) ->
  postnet self mel = Ok post ->
  tensor_add E mel post = Ok sum ->
  infer self E h text
  = Ok (h ++ [mel; sum; gate; align],
        (length h, S (length h), S (S (S (length h))))).
Proof.
  intros Hseq H32 He Ht Henc Hdec Hpost Hsum. unfold infer.
  rewrite Hseq. cbn [bind]. unfold Torch.row_tensor.
  rewrite (int_tensor_check_ok _ H32). cbn [bind]. unfold mode.
  rewrite (inference_run self E h _ e embedded encoded mel gate align
             post sum) by assumption.
  reflexivity.
Qed.

Lemma infer_returns_triple_witness :
  exists mel sum gate align,
    infer (Sample.model true) (Sample.env true) [] ""
    = Ok ([] ++ [mel; sum; gate; align], (0, 1, 3)).
Proof.
  do 4 eexists.
  eapply (infer_returns_triple (Sample.model true) (Sample.env true) []
            "" []).
  - reflexivity.
  - reflexivity.
  - vm_compute. reflexivity.
  - vm_compute. reflexivity.
  - vm_compute. reflexivity.
  - vm_compute. reflexivity.
  - vm_compute. reflexivity.
  - vm_compute. reflexivity.
Defined.

(** ** parse_batch *)

Lemma fold_left_max_ge l : forall x y,
  In y (x :: l) -> (y <= fold_left Z.max l x)%Z.
Proof.
  induction l as [|z l IH]; intros x y Hy; simpl in *.
  - destruct Hy as [<-|[]]. lia.
  - destruct Hy as [<-|[<-|Hy]].
    + specialize (IH (Z.max x z) (Z.max x z) (or_introl eq_refl)). lia.
    + specialize (IH (Z.max x z) (Z.max x z) (or_introl eq_refl)). lia.
    + apply IH. now right.
Qed.

Lemma fold_left_max_in l : forall x, In (fold_left Z.max l x) (x :: l).
Proof.
  induction l as [|z l IH]; intros x; simpl.
  - now left.
  - destruct (IH (Z.max x z)) as [H|H].
    + rewrite <- H. destruct (Z.max_spec x z) as [[_ ->]|[_ ->]]; auto.
    + auto.
Qed.

Lemma cast_long_of E t : long_of E t (Cast.long E t).
Proof. destruct t; constructor. Qed.

Lemma cast_float_of E t : float_of t (Cast.float E t).
Proof. destruct t; constructor. Qed.

Lemma long_of_unique E t t1 t2 : long_of E t t1 -> long_of E t t2 -> t1 = t2.
Proof.
  intros H1 H2. destruct H1; inversion H2; reflexivity.
Qed.

(** C7. For a batch whose vector of input lengths, taken to the integer
    dtype, is not empty, [parse_batch] returns the pair of [(text_padded,
    input_lengths, mel_padded, max_len, output_lengths)] and [(mel_padded,
    gate_padded)], in which the symbol IDs and the two length vectors are
    the integer tensors of what was given (an integer tensor as it is, a
    floating one converted element by element), the mel and gate targets the
    32-bit floating tensors of it (a 64-bit one rounded element by element,
    an integer one converted), and [max_len] is the largest of the input
    lengths.  Nothing else about the batch is looked at. *)
Theorem parse_batch_restructures
  E text_padded input_lengths mel_padded gate_padded output_lengths
  input_lengths' :
  long_of E input_lengths input_lengths' ->
  data input_lengths' <> [] ->
  exists text_padded' mel_padded' gate_padded' output_lengths' max_len,
    parse_batch E
      (text_padded, input_lengths, mel_padded, gate_padded, output_lengths)
    = Ok ((text_padded', input_lengths', mel_padded', max_len,
           output_lengths'),
          (mel_padded', gate_padded'))
    /\ long_of E text_padded text_padded'
    /\ float_of mel_padded mel_padded'
    /\ float_of gate_padded gate_padded'
    /\ long_of E output_lengths output_lengths'
    /\ In max_len (data input_lengths')
    /\ forall x, In x (data input_lengths') -> (x <= max_len)%Z.
Proof.
  intros Hil Hne.
  rewrite (long_of_unique E _ _ _ Hil (cast_long_of E input_lengths)) in *.
  unfold parse_batch, Torch.max, mode.
  destruct (data (Cast.long E input_lengths)) as [|x l] eqn:Hd;
    [congruence|].
  exists (Cast.long E text_padded), (Cast.float E mel_padded),
    (Cast.float E gate_padded), (Cast.long E output_lengths),
    (fold_left Z.max l x).
  cbn [bind]. split; [reflexivity|].
  split; [apply cast_long_of|]. split; [apply cast_float_of|].
  split; [apply cast_float_of|]. split; [apply cast_long_of|].
  split.
  - apply fold_left_max_in.
  - intros y Hy. now apply fold_left_max_ge.
Qed.

Lemma parse_batch_restructures_witness :
  exists text_padded' mel_padded' gate_padded' output_lengths' max_len,
    parse_batch (Sample.env true)
      (LongT Sample.text_padded, LongT Sample.input_lengths,
       DoubleT (Tensor.mk [1; 1; 2] [16777217; 0.5]%float),
       FloatT Sample.gate_padded, LongT Sample.output_lengths)
    = Ok ((text_padded', Sample.input_lengths, mel_padded', max_len,
           output_lengths'),
          (mel_padded', gate_padded'))
    /\ long_of (Sample.env true) (LongT Sample.text_padded) text_padded'
    /\ float_of (DoubleT (Tensor.mk [1; 1; 2] [16777217; 0.5]%float))
         mel_padded'
    /\ float_of (FloatT Sample.gate_padded) gate_padded'
    /\ long_of (Sample.env true) (LongT Sample.output_lengths)
         output_lengths'
    /\ In max_len (data Sample.input_lengths)
    /\ forall x, In x (data Sample.input_lengths) -> (x <= max_len)%Z.
Proof.
  apply (parse_batch_restructures (Sample.env true)
           (LongT Sample.text_padded) (LongT Sample.input_lengths)
           (DoubleT (Tensor.mk [1; 1; 2] [16777217; 0.5]%float))
           (FloatT Sample.gate_padded) (LongT Sample.output_lengths)
           Sample.input_lengths).
  - constructor.
  - simpl. discriminate.
Defined.

(** The 64-bit target 16777217 has no 32-bit value of its own and comes back
    as 16777216. *)
Example parse_batch_rounds_double :
  Cast.float (Sample.env true)
    (DoubleT (Tensor.mk [1; 1; 2] [16777217; 0.5]%float))
  = Tensor.mk [1; 1; 2] [16777216; 0.5]%float.
Proof. vm_compute. reflexivity. Qed.

(** ** forward and teacher_infer *)

Lemma forward_run
  self E h text_inputs text_lengths mels max_len output_lengths
  e embedded encoded mel gate align post sum :
  Torch.embedding_lookup (embedding self) text_inputs = Ok e ->
  Torch.transpose 0%float e 1 2 = Ok embedded ->
  encoder_forward (encoder self) embedded text_lengths = Ok encoded ->
  decoder_forward (decoder self) encoded mels text_lengths
  = Ok (mel, gate, align) ->
  postnet self mel = Ok post ->
  tensor_add E mel post = Ok sum ->
  forward self E h
    (text_inputs, text_lengths, mels, max_len, output_lengths)
  = parse_output self E (h ++ [mel; sum; gate; align])
      [length h; S (length h); S (S (length h)); S (S (S (length h)))]
      (Some output_lengths).
Proof.
  intros He Ht Henc Hdec Hpost Hsum. unfold forward.
  rewrite He. cbn [bind]. rewrite Ht. cbn [bind]. rewrite Henc. cbn [bind].
  rewrite Hdec. cbn [bind]. rewrite Hpost. cbn [bind].
  rewrite Hsum. cbn [bind]. now rewrite alloc_outputs_eq.
Qed.

Module SortFacts.

Import Torch.

Lemma insert_desc_perm x l : Permutation (insert_desc x l) (x :: l).
Proof.
  induction l as [|y l IH]; simpl.
  - apply Permutation_refl.
  - destruct (y <=? x)%Z.
    + apply Permutation_refl.
    + apply perm_trans with (y :: x :: l).
      * now apply perm_skip.
      * apply perm_swap.
Qed.

Lemma sort_desc_perm l : Permutation (sort_desc l) l.
Proof.
  induction l as [|x l IH]; simpl.
  - apply perm_nil.
  - apply perm_trans with (x :: sort_desc l).
    + apply insert_desc_perm.
    + now apply perm_skip.
Qed.

Lemma insert_desc_hd x y l :
  (y >= x)%Z -> HdRel Z.ge y l -> HdRel Z.ge y (insert_desc x l).
Proof.
  intros Hyx Hl. destruct l as [|z l]; simpl.
  - now constructor.
  - destruct (z <=? x)%Z; constructor; auto.
    now inversion Hl.
Qed.

Lemma insert_desc_sorted x l :
  Sorted Z.ge l -> Sorted Z.ge (insert_desc x l).
Proof.
  induction 1 as [|y l Hs IH Hhd]; simpl.
  - repeat constructor.
  - destruct (Z.leb_spec y x).
    + constructor; [now constructor|]. constructor. lia.
    + constructor; [exact IH|]. apply insert_desc_hd; [lia | exact Hhd].
Qed.

Lemma sort_desc_sorted l : Sorted Z.ge (sort_desc l).
Proof.
  induction l as [|x l IH]; simpl.
  - constructor.
  - now apply insert_desc_sorted.
Qed.

Lemma sort_desc_of_sorted l : Sorted Z.ge l -> sort_desc l = l.
Proof.
  induction 1 as [|x l Hs IH Hhd]; simpl; [reflexivity|].
  rewrite IH. destruct Hhd as [|y l' Hxy]; simpl; [reflexivity|].
  destruct (Z.leb_spec y x); [reflexivity | lia].
Qed.

Lemma repeat_sorted x n : Sorted Z.ge (repeat x n).
Proof.
  induction n as [|n IH]; simpl; constructor; [exact IH|].
  destruct n; simpl; constructor. lia.
Qed.

(** The rows of a tensor all have its second size: their lengths are
    sorted as they stand. *)
Lemma row_lengths_sorted {A} (t : tensor A) lens :
  row_lengths t = Ok lens -> Sorted Z.ge lens.
Proof.
  unfold row_lengths. destruct (shape t) as [|n [|m sh]].
  - discriminate.
  - destruct n; [|discriminate]. intros [= <-]. constructor.
  - destruct n as [|n]; intros [= <-].
    + exact (repeat_sorted (Z.of_nat m) 0).
    + exact (repeat_sorted (Z.of_nat m) (S n)).
Qed.

End SortFacts.

Import SortFacts.

Lemma parse_output_None self E h outputs :
  parse_output self E h outputs None = Ok (h, outputs).
Proof.
  unfold parse_output. now destruct (mask_padding self).
Qed.

Lemma parse_output_off self E h outputs output_lengths :
  mask_padding self = false ->
  parse_output self E h outputs output_lengths = Ok (h, outputs).
Proof.
  unfold parse_output. now intros ->.
Qed.

(** C3 (as the code has it). [teacher_infer] sorts the lengths of the input
    rows in descending order (the rows themselves stay where they are, and,
    being the rows of one padded tensor, their lengths are sorted already),
    runs the pipeline of [forward] on them and applies no length masking:
    [forward] on the restructured inputs is [teacher_infer] followed by the
    masking of [parse_output], and the two return the same when the
    padding-mask flag is off. *)
Theorem teacher_infer_is_forward_unmasked
  self E h inputs mels lens max_len output_lengths :
  Torch.row_lengths inputs = Ok lens ->
  Sorted Z.ge (Torch.sort_desc lens)
  /\ Permutation (Torch.sort_desc lens) lens
  /\ Torch.sort_desc lens = lens
  /\ forward self E h
       (inputs,
        Tensor.mk [length (Torch.sort_desc lens)] (Torch.sort_desc lens),
        mels, max_len, output_lengths)
     = bind (teacher_infer self E h inputs mels)
         (fun r => parse_output self E (fst r) (snd r) (Some output_lengths))
  /\ (mask_padding self = false ->
      teacher_infer self E h inputs mels
      = forward self E h
          (inputs,
           Tensor.mk [length (Torch.sort_desc lens)] (Torch.sort_desc lens),
           mels, max_len, output_lengths)).
Proof.
  intros Hlens.
  assert (Hbind :
    forward self E h
      (inputs,
       Tensor.mk [length (Torch.sort_desc lens)] (Torch.sort_desc lens),
       mels, max_len, output_lengths)
    = bind (teacher_infer self E h inputs mels)
        (fun r => parse_output self E (fst r) (snd r) (Some output_lengths))).
  { unfold forward, teacher_infer. rewrite Hlens. cbn [bind]. unfold mode.
    destruct (Torch.embedding_lookup (embedding self) inputs) as [e|];
      [|reflexivity].
    cbn [bind].
    destruct (Torch.transpose 0%float e 1 2) as [embedded|]; [|reflexivity].
    cbn [bind].
    destruct (encoder_forward (encoder self) embedded _) as [encoded|];
      [|reflexivity].
    cbn [bind].
    destruct (decoder_forward (decoder self) encoded mels _)
      as [[[mel gate] align]|]; [|reflexivity].
    cbn [bind].
    destruct (postnet self mel) as [post|]; [|reflexivity].
    cbn [bind].
    destruct (tensor_add E mel post) as [sum|]; [|reflexivity].
    cbn [bind]. rewrite alloc_outputs_eq, parse_output_None. reflexivity. }
  split; [apply sort_desc_sorted|].
  split; [apply sort_desc_perm|].
  split; [apply sort_desc_of_sorted; now apply row_lengths_sorted with inputs|].
  split; [exact Hbind|].
  intros Hoff. rewrite Hbind.
  destruct (teacher_infer self E h inputs mels) as [[h' outs]|];
    [|reflexivity].
  cbn [bind fst snd]. now rewrite parse_output_off.
Qed.

Lemma teacher_infer_is_forward_unmasked_witness :
  Sorted Z.ge (Torch.sort_desc [3; 3]%Z)
  /\ Permutation (Torch.sort_desc [3; 3]%Z) [3; 3]%Z
  /\ Torch.sort_desc [3; 3]%Z = [3; 3]%Z
  /\ forward (Sample.model false) (Sample.env false) []
       (Sample.text_padded,
        Tensor.mk [length (Torch.sort_desc [3; 3]%Z)]
          (Torch.sort_desc [3; 3]%Z),
        Sample.mel_padded, 3%Z, Sample.output_lengths)
     = bind
         (teacher_infer (Sample.model false) (Sample.env false) []
            Sample.text_padded Sample.mel_padded)
         (fun r =>
            parse_output (Sample.model false) (Sample.env false) (fst r)
              (snd r) (Some Sample.output_lengths))
  /\ (mask_padding (Sample.model false) = false ->
      teacher_infer (Sample.model false) (Sample.env false) []
        Sample.text_padded Sample.mel_padded
      = forward (Sample.model false) (Sample.env false) []
          (Sample.text_padded,
           Tensor.mk [length (Torch.sort_desc [3; 3]%Z)]
             (Torch.sort_desc [3; 3]%Z),
           Sample.mel_padded, 3%Z, Sample.output_lengths)).
Proof.
  apply (teacher_infer_is_forward_unmasked (Sample.model false)
           (Sample.env false) [] Sample.text_padded Sample.mel_padded
           [3; 3]%Z 3%Z Sample.output_lengths).
  reflexivity.
Defined.

(** C3 (as stated) fails: with the padding-mask flag on, [forward] zeroes the
    padded frames of the second utterance and [teacher_infer], on the same
    sorted rows of equal length and the same targets, does not. *)
Lemma teacher_infer_differs_from_forward :
  Torch.row_lengths Sample.text_padded = Ok (data Sample.input_lengths)
  /\ Sorted Z.ge (data Sample.input_lengths)
  /\ teacher_infer (Sample.model true) (Sample.env true) []
       Sample.text_padded Sample.mel_padded
     <> forward (Sample.model true) (Sample.env true) [] Sample.the_inputs.
Proof.
  split; [reflexivity|]. split; [apply (repeat_sorted 3%Z 2)|].
  intros H.
  apply (f_equal (fun r => zero_at r 0 [1; 0; 2])) in H.
  vm_compute in H. discriminate.
Qed.

(** ** The postnet residual *)

Lemma broadcast_rev_refl l : Torch.broadcast_rev l l = Some l.
Proof.
  induction l as [|n l IH]; simpl; [reflexivity|].
  now rewrite IH, Nat.eqb_refl.
Qed.

Lemma broadcast_shapes_refl sh : Torch.broadcast_shapes sh sh = Some sh.
Proof.
  unfold Torch.broadcast_shapes. rewrite broadcast_rev_refl. simpl.
  now rewrite rev_involutive.
Qed.

(** The sum of two tensors of one shape, element by element. *)
Lemma add_same_shape d (f : float -> float -> float) (a b : tensor float) :
  shape b = shape a ->
  exists c,
    Torch.add d f a b = Ok c
    /\ shape c = shape a
    /\ wf c
    /\ forall idx x y,
         get a idx = Some x -> get b idx = Some y ->
         get c idx = Some (f x y).
Proof.
  intros Hs. unfold Torch.add. rewrite Hs, broadcast_shapes_refl.
  eexists. split; [reflexivity|]. split; [reflexivity|].
  split; [apply wf_build|].
  intros idx x y Hx Hy.
  pose proof (get_in_bounds _ _ _ Hx) as Hb.
  rewrite get_build by assumption.
  rewrite (bidx_id _ _ Hb).
  now rewrite (get_or_some d _ _ _ Hx), (get_or_some d _ _ _ Hy).
Qed.

Lemma read_app_0 (h : heap) x l : read (h ++ x :: l) (length h) = Some x.
Proof.
  unfold read. rewrite nth_error_app2 by lia. now rewrite Nat.sub_diag.
Qed.

Lemma read_app_1 (h : heap) x y l :
  read (h ++ x :: y :: l) (S (length h)) = Some y.
Proof.
  unfold read. rewrite nth_error_app2 by lia.
  now replace (S (length h) - length h) with 1 by lia.
Qed.

Lemma read_app_2 (h : heap) x y z l :
  read (h ++ x :: y :: z :: l) (S (S (length h))) = Some z.
Proof.
  unfold read. rewrite nth_error_app2 by lia.
  now replace (S (S (length h)) - length h) with 2 by lia.
Qed.

Lemma read_app_3 (h : heap) x y z w l :
  read (h ++ x :: y :: z :: w :: l) (S (S (S (length h)))) = Some w.
Proof.
  unfold read. rewrite nth_error_app2 by lia.
  now replace (S (S (S (length h))) - length h) with 3 by lia.
Qed.

(** The heap of a teacher-forced pass before masking holds tensors of the
    shapes that [parse_output] goes through. *)
Lemma outputs_have_shapes h mel sum gate align b c t g :
  shape mel = [b; c; t] -> wf mel ->
  shape sum = [b; c; t] -> wf sum ->
  shape gate = [b; g] -> wf gate ->
  has_shape (h ++ [mel; sum; gate; align]) (length h) [b; c; t]
  /\ has_shape (h ++ [mel; sum; gate; align]) (S (length h)) [b; c; t]
  /\ has_shape (h ++ [mel; sum; gate; align]) (S (S (length h))) [b; g].
Proof.
  intros Hm Hmw Hs Hsw Hg Hgw. split; [|split].
  - exists mel. now rewrite read_app_0.
  - exists sum. now rewrite read_app_1.
  - exists gate. now rewrite read_app_2.
Qed.

(** C4 (as the code has it). [forward] returns its outputs in the order
    (mel, mel + postnet, gate, alignments), where the second is the raw
    decoder mel plus the postnet applied to the raw decoder mel, added before
    any masking.  With the padding-mask flag off the second tensor returned
    is therefore the first plus the postnet of the first.  With masking, at
    the valid positions of an item the first is the raw mel and the second
    the raw mel plus the postnet of the raw mel, and at its padded positions
    both are [0.0]. *)
Theorem forward_postnet_residual
  self E h text_inputs text_lengths mels max_len output_lengths
  e embedded encoded mel gate align post :
  Torch.embedding_lookup (embedding self) text_inputs = Ok e ->
  Torch.transpose 0%float e 1 2 = Ok embedded ->
  encoder_forward (encoder self) embedded text_lengths = Ok encoded ->
  decoder_forward (decoder self) encoded mels text_lengths
  = Ok (mel, gate, align) ->
  postnet self mel = Ok post ->
  shape post = shape mel ->
  exists sum,
    tensor_add E mel post = Ok sum
    /\ (forall idx x y,
          get mel idx = Some x -> get post idx = Some y ->
          get sum idx = Some (scalar_add E x y))
    /\ (mask_padding self = false ->
        forward self E h
          (text_inputs, text_lengths, mels, max_len, output_lengths)
        = Ok (h ++ [mel; sum; gate; align],
              [length h; S (length h); S (S (length h));
               S (S (S (length h)))]))
    /\ forall m b t,
         mask_padding self = true ->
         get_mask_from_lengths E output_lengths true = Ok m ->
         padding_mask_of output_lengths m b t ->
         0 < num_mels self -> 0 < n_frames_per_step self ->
         shape mel = [b; num_mels self; t] -> wf mel ->
         shape gate = [b; ceil_div t (n_frames_per_step self)] -> wf gate ->
         exists h',
           forward self E h
             (text_inputs, text_lengths, mels, max_len, output_lengths)
           = Ok (h', [length h; S (length h); S (S (length h));
                      S (S (S (length h)))])
           /\ read h' (S (S (S (length h)))) = Some align
           /\ forall i j k len x y,
                i < b -> j < num_mels self -> k < t ->
                get output_lengths [i] = Some len ->
                get mel [i; j; k] = Some x ->
                get post [i; j; k] = Some y ->
                ((Z.of_nat k < len)%Z ->
                 read_at h' (length h) [i; j; k] = Some x
                 /\ read_at h' (S (length h)) [i; j; k]
                    = Some (scalar_add E x y))
                /\ ((len <= Z.of_nat k)%Z ->
                    read_at h' (length h) [i; j; k] = Some 0%float
                    /\ read_at h' (S (length h)) [i; j; k] = Some 0%float).
Proof.
  intros He Ht Henc Hdec Hpost Hshape.
  destruct (add_same_shape 0%float (scalar_add E) mel post Hshape)
    as (sum & Hsum & Hss & Hsw & Hsg).
  exists sum. split; [exact Hsum|]. split; [exact Hsg|]. split.
  - intros Hoff.
    rewrite (forward_run self E h _ _ _ max_len output_lengths e embedded
               encoded mel gate align post sum) by assumption.
    now apply parse_output_off.
  - intros m b t Hon Hm Hpm Hc Hstep Hms Hmw Hgs Hgw.
    rewrite (forward_run self E h _ _ _ max_len output_lengths e embedded
               encoded mel gate align post sum) by assumption.
    destruct (outputs_have_shapes h mel sum gate align b (num_mels self) t
                (ceil_div t (n_frames_per_step self)))
      as (Hl0 & Hl1 & Hl2); try assumption; [congruence|].
    destruct Hpm as [Hs Hmask].
    destruct (parse_output_run self E (h ++ [mel; sum; gate; align])
                [length h; S (length h); S (S (length h));
                 S (S (S (length h)))]
                output_lengths m b t (length h) (S (length h))
                (S (S (length h))))
      as (h' & mask & gm & Hrun & Hm3 & _ & Hframe & _ & Hat0 & Hat1 & _);
      try assumption; try reflexivity.
    exists h'. split; [exact Hrun|]. split.
    { rewrite Hframe by lia. apply read_app_3. }
    intros i j k len x y Hi Hj Hk Hlen Hx Hy.
    pose proof (Hm3 i j k _ Hi Hj Hk (Hmask i k len Hi Hk Hlen)) as Hv.
    rewrite Hat0, Hat1. unfold read_at.
    rewrite read_app_0, read_app_1, Hx, (Hsg _ _ _ Hx Hy).
    unfold fill. simpl. rewrite Hv. split.
    + intros Hlt. apply Z.ltb_lt in Hlt. now rewrite Hlt.
    + intros Hge. apply Z.ltb_ge in Hge. now rewrite Hge.
Qed.

Lemma forward_postnet_residual_witness :
  exists h',
    forward (Sample.model true) (Sample.env true) [] Sample.the_inputs
    = Ok (h', [0; 1; 2; 3])
    /\ read_at h' 0 [1; 0; 1] = Some 10%float
    /\ read_at h' 1 [1; 0; 1] = Some 11%float
    /\ read_at h' 0 [1; 0; 2] = Some 0%float
    /\ read_at h' 1 [1; 0; 2] = Some 0%float.
Proof.
  destruct (forward_postnet_residual (Sample.model true) (Sample.env true)
              [] Sample.text_padded Sample.input_lengths Sample.mel_padded
              3%Z Sample.output_lengths Sample.the_looked_up
              Sample.the_embedded Sample.the_embedded Sample.mel_padded
              Sample.the_gate Sample.the_alignments Sample.the_post
              eq_refl eq_refl eq_refl eq_refl eq_refl eq_refl)
    as (sum & _ & _ & _ & Hmasked).
  destruct (Hmasked Sample.the_mask 2 4 eq_refl eq_refl sample_padding_mask
              (Nat.lt_0_succ 1) (Nat.lt_0_succ 1) eq_refl eq_refl eq_refl
              eq_refl)
    as (h' & Hrun & _ & Hpos).
  exists h'. split; [exact Hrun|].
  assert (H12 : 1 < 2) by lia. assert (H02 : 0 < 2) by lia.
  assert (H14 : 1 < 4) by lia. assert (H24 : 2 < 4) by lia.
  destruct (Hpos 1 0 1 2%Z 10%float 1%float H12 H02 H14 eq_refl eq_refl
              eq_refl) as [Hvalid _].
  destruct (Hpos 1 0 2 2%Z 11%float 1%float H12 H02 H24 eq_refl eq_refl
              eq_refl) as [_ Hpadded].
  destruct (Hvalid ltac:(lia)) as [Hv0 Hv1].
  destruct (Hpadded ltac:(lia)) as [Hp0 Hp1].
  repeat split; assumption.
Defined.

(** C4 (as stated) fails: with masking, the second tensor that [forward]
    returns is not the first one returned plus the postnet of it.  At a padded
    position the second is [0.0], while the first, [0.0] there too, plus the
    postnet of the first is not. *)
Lemma forward_second_is_not_first_plus_postnet :
  exists h' first second post,
    forward (Sample.model true) (Sample.env true) [] Sample.the_inputs
    = Ok (h', [0; 1; 2; 3])
    /\ read h' 0 = Some first
    /\ read h' 1 = Some second
    /\ postnet (Sample.model true) first = Ok post
    /\ tensor_add (Sample.env true) first post <> Ok second.
Proof.
  do 4 eexists.
  split; [vm_compute; reflexivity|].
  split; [vm_compute; reflexivity|].
  split; [vm_compute; reflexivity|].
  split; [vm_compute; reflexivity|].
  intros H.
  apply (f_equal (fun r => tensor_zero_at r [1; 0; 2])) in H.
  vm_compute in H. discriminate.
Qed.

(** ** The shapes of what forward returns *)

(** C9. On a batch of [b] items padded to [t] frames, [t] a multiple of the
    frames per step, with a decoder and a postnet that return tensors of the
    shapes the data model gives them, [forward] returns, and its two mel
    tensors have shape [(b, num_mels, t)] and its gate tensor shape
    [(b, t / n_frames_per_step)]. *)
Theorem forward_output_shapes
  self E h text_inputs text_lengths mels max_len output_lengths
  e embedded encoded mel gate align post b t :
  Torch.embedding_lookup (embedding self) text_inputs = Ok e ->
  Torch.transpose 0%float e 1 2 = Ok embedded ->
  encoder_forward (encoder self) embedded text_lengths = Ok encoded ->
  decoder_forward (decoder self) encoded mels text_lengths
  = Ok (mel, gate, align) ->
  postnet self mel = Ok post ->
  decoder_output_shapes self b t (mel, gate, align) ->
  postnet_output_shape mel post ->
  0 < num_mels self -> 0 < n_frames_per_step self ->
  t mod n_frames_per_step self = 0 ->
  (mask_padding self = true ->
   exists m,
     get_mask_from_lengths E output_lengths true = Ok m
     /\ shape m = [b; t]) ->
  exists h',
    forward self E h
      (text_inputs, text_lengths, mels, max_len, output_lengths)
    = Ok (h', [length h; S (length h); S (S (length h));
               S (S (S (length h)))])
    /\ has_shape h' (length h) [b; num_mels self; t]
    /\ has_shape h' (S (length h)) [b; num_mels self; t]
    /\ has_shape h' (S (S (length h))) [b; t / n_frames_per_step self].
Proof.
  intros He Ht Henc Hdec Hpost (Hms & Hmw & Hgs & Hgw) Hps Hc Hstep Hmod Hmask.
  destruct (add_same_shape 0%float (scalar_add E) mel post Hps)
    as (sum & Hsum & Hss & Hsw & _).
  rewrite (forward_run self E h _ _ _ max_len output_lengths e embedded
             encoded mel gate align post sum) by assumption.
  destruct (outputs_have_shapes h mel sum gate align b (num_mels self) t
              (t / n_frames_per_step self))
    as (Hl0 & Hl1 & Hl2); try assumption; [congruence|].
  destruct (mask_padding self) eqn:Hflag.
  - destruct (Hmask eq_refl) as (m & Hm & Hs).
    rewrite <- (ceil_div_exact t _ Hstep Hmod) in Hl2 |- *.
    destruct (parse_output_run self E (h ++ [mel; sum; gate; align])
                [length h; S (length h); S (S (length h));
                 S (S (S (length h)))]
                output_lengths m b t (length h) (S (length h))
                (S (S (length h))))
      as (h' & _ & _ & Hrun & _ & _ & _ & Hkeep & _);
      try assumption; try reflexivity.
    exists h'. split; [exact Hrun|]. auto.
  - exists (h ++ [mel; sum; gate; align]).
    split; [now apply parse_output_off|]. auto.
Qed.

Lemma forward_output_shapes_witness :
  exists h',
    forward (Sample.model true) (Sample.env true) [] Sample.the_inputs
    = Ok (h', [0; 1; 2; 3])
    /\ has_shape h' 0 [2; 2; 4]
    /\ has_shape h' 1 [2; 2; 4]
    /\ has_shape h' 2 [2; 4 / 2].
Proof.
  apply (forward_output_shapes (Sample.model true) (Sample.env true) []
           Sample.text_padded Sample.input_lengths Sample.mel_padded 3%Z
           Sample.output_lengths Sample.the_looked_up Sample.the_embedded
           Sample.the_embedded Sample.mel_padded Sample.the_gate
           Sample.the_alignments Sample.the_post 2 4).
  - reflexivity.
  - reflexivity.
  - reflexivity.
  - reflexivity.
  - reflexivity.
  - repeat split.
  - reflexivity.
  - simpl; lia.
  - simpl; lia.
  - reflexivity.
  - intros _. exists Sample.the_mask. split; reflexivity.
Defined.

(** ** The embedding table after construction *)

Module FloatFacts.

Import SpecFloat.

Lemma SFcompare_refl a :
  a <> S754_nan -> SFcompare a a = Some Eq.
Proof.
  destruct a as [s|s| |s m x]; simpl; intros Hn.
  - reflexivity.
  - now destruct s.
  - congruence.
  - rewrite Z.compare_refl.
    change (PosDef.Pos.compare_cont Eq m m) with (Pos.compare m m).
    rewrite Pos.compare_refl. now destruct s.
Qed.

Lemma SFleb_refl a b :
  SFleb a b = true -> SFleb a a = true /\ SFleb b b = true.
Proof.
  unfold SFleb. intros H.
  assert (Ha : a <> S754_nan) by (intros ->; discriminate).
  assert (Hb : b <> S754_nan) by (intros ->; now destruct a).
  now rewrite !SFcompare_refl.
Qed.

Lemma leb_refl_of_leb lo hi :
  PrimFloat.leb lo hi = true ->
  PrimFloat.leb lo lo = true /\ PrimFloat.leb hi hi = true.
Proof.
  rewrite !FloatAxioms.leb_spec. apply SFleb_refl.
Qed.

End FloatFacts.

(** C8 (as the code has it).  The embedding table is a tensor of the 32-bit
    floating dtype, and [uniform_] takes the two bounds into it.  When the
    sampler keeps its contract and the bound
    [sqrt(3) * sqrt(2 / (n_symbols + symbols_embedding_dim))] is a
    non-negative number, [__init__] returns a model whose embedding table
    has [n_symbols] rows of [symbols_embedding_dim] entries, each between
    the 32-bit values of minus the bound and of the bound. *)
Theorem init_embedding_float32_bounds E :
  sampler_in_float32_range E ->
  Hps.n_symbols (hps E) + Hps.symbols_embedding_dim (hps E) <> 0 ->
  PrimFloat.leb
    (- uniform_bound (Hps.n_symbols (hps E))
         (Hps.symbols_embedding_dim (hps E)))%float
    (uniform_bound (Hps.n_symbols (hps E))
       (Hps.symbols_embedding_dim (hps E))) = true ->
  PrimFloat.leb
    (to_float32
       (- uniform_bound (Hps.n_symbols (hps E))
            (Hps.symbols_embedding_dim (hps E)))%float)
    (to_float32
       (uniform_bound (Hps.n_symbols (hps E))
          (Hps.symbols_embedding_dim (hps E)))) = true ->
  exists self,
    __init__ E = Ok self
    /\ shape (embedding self)
       = [Hps.n_symbols (hps E); Hps.symbols_embedding_dim (hps E)]
    /\ wf (embedding self)
    /\ uniform_bound (Hps.n_symbols (hps E))
         (Hps.symbols_embedding_dim (hps E))
       = (PrimFloat.sqrt 3
          * PrimFloat.sqrt
              (2 / float_of_nat
                     (Hps.n_symbols (hps E)
                      + Hps.symbols_embedding_dim (hps E))))%float
    /\ Forall
         (between
            (to_float32
               (- uniform_bound (Hps.n_symbols (hps E))
                    (Hps.symbols_embedding_dim (hps E)))%float)
            (to_float32
               (uniform_bound (Hps.n_symbols (hps E))
                  (Hps.symbols_embedding_dim (hps E)))))
         (data (embedding self)).
Proof.
  intros Hsampler Hne Hb Hb32.
  destruct (Hsampler
              [Hps.n_symbols (hps E); Hps.symbols_embedding_dim (hps E)]
              _ _ Hb Hb32) as (w & Hw & Hs & Hwf & Hall).
  unfold __init__. destruct (Nat.eqb_spec (Hps.n_symbols (hps E)
                                           + Hps.symbols_embedding_dim (hps E)) 0);
    [contradiction|].
  rewrite Hw. cbn [bind]. eexists. split; [reflexivity|].
  cbn [embedding]. repeat split; assumption.
Qed.

Example sample_model_is_built flag :
  __init__ (Sample.env flag) = Ok (Sample.model flag).
Proof. now destruct flag. Qed.

Lemma float32_sampler_in_range n e :
  sampler_in_float32_range (Sample.float32_env n e).
Proof.
  intros sh lo hi H H32. cbn [uniform_ Sample.float32_env].
  rewrite H, H32. cbn [andb].
  exists (Sample.float32_weights sh lo hi).
  split; [reflexivity|]. split; [reflexivity|].
  split; [apply wf_build|].
  apply Forall_forall. intros x Hx.
  unfold Sample.float32_weights, Sample.sample_weights, build in Hx.
  cbn [data] in Hx.
  apply in_map_iff in Hx. destruct Hx as (k & <- & _).
  destruct (FloatFacts.leb_refl_of_leb _ _ H32) as [Hlo Hhi].
  destruct (Nat.even _); split; assumption.
Qed.

Lemma init_embedding_float32_bounds_witness :
  exists self,
    __init__ (Sample.float32_env 1000 1002) = Ok self
    /\ shape (embedding self) = [1000; 1002]
    /\ wf (embedding self)
    /\ uniform_bound 1000 1002
       = (PrimFloat.sqrt 3
          * PrimFloat.sqrt (2 / float_of_nat (1000 + 1002)))%float
    /\ Forall
         (between (to_float32 (- uniform_bound 1000 1002)%float)
            (to_float32 (uniform_bound 1000 1002)))
         (data (embedding self)).
Proof.
  apply (init_embedding_float32_bounds (Sample.float32_env 1000 1002)).
  - apply float32_sampler_in_range.
  - cbn [hps Sample.float32_env Hps.n_symbols Hps.symbols_embedding_dim].
    discriminate.
  - vm_compute. reflexivity.
  - vm_compute. reflexivity.
Defined.

Lemma In_build {A} sh (f : list nat -> A) idx :
  in_bounds sh idx = true -> In (f idx) (data (build sh f)).
Proof.
  intros Hb. pose proof (get_build sh f idx Hb) as Hg.
  unfold get in Hg. rewrite shape_build, Hb in Hg.
  now apply nth_error_In in Hg.
Qed.

(** C8 (as stated) fails: the table holds 32-bit values and the sampler may
    draw its lower bound.  For 1000 symbols in 1002 dimensions the 32-bit
    value of the bound, 0.054744891822338104, is above the bound itself,
    0.054744890145135894, and an entry drawn at the lower bound lies below
    minus the bound. *)
Lemma embedding_entry_outside_bound :
  sampler_in_float32_range (Sample.float32_env 1000 1002)
  /\ exists self x,
       __init__ (Sample.float32_env 1000 1002) = Ok self
       /\ In x (data (embedding self))
       /\ PrimFloat.leb (- uniform_bound 1000 1002) x = false.
Proof.
  split; [apply float32_sampler_in_range|].
  assert (Hok : PrimFloat.leb (- uniform_bound 1000 1002)
                  (uniform_bound 1000 1002)
                && PrimFloat.leb
                     (to_float32 (- uniform_bound 1000 1002))
                     (to_float32 (uniform_bound 1000 1002)) = true)
    by (vm_compute; reflexivity).
  eexists. eexists. split; [|split].
  - unfold __init__.
    cbn [hps Sample.float32_env Hps.n_symbols Hps.symbols_embedding_dim
         uniform_].
    change (1000 + 1002 =? 0) with false. cbv iota.
    rewrite Hok. cbn [bind]. reflexivity.
  - cbn [embedding].
    unfold Sample.float32_weights, Sample.sample_weights.
    apply (In_build [1000; 1002] _ [0; 0]). reflexivity.
  - vm_compute. reflexivity.
Qed.

(** * Further properties of the passes *)

(** ** What a returning parse_output has done *)

Module Inversion.

(** A run of [parse_output] that returns either wrote nothing or made its
    three fills, one after the other, on the first three elements. *)
Lemma parse_output_inv self E h outputs output_lengths h' outputs' :
  parse_output self E h outputs output_lengths = Ok (h', outputs') ->
  outputs' = outputs
  /\ ((mask_padding self = false \/ output_lengths = None) /\ h' = h
      \/ exists mask gate_mask l0 l1 l2 h1 h2,
           mask_padding self = true
           /\ nth_error outputs 0 = Some l0
           /\ nth_error outputs 1 = Some l1
           /\ nth_error outputs 2 = Some l2
           /\ masked_fill_ h l0 mask 0 = Ok h1
           /\ masked_fill_ h1 l1 mask 0 = Ok h2
           /\ masked_fill_ h2 l2 gate_mask 1e3 = Ok h').
Proof.
  intros Hrun. unfold parse_output in Hrun.
  destruct (mask_padding self) eqn:Hflag.
  2:{ injection Hrun as <- <-. split; [reflexivity|]. left. auto. }
  destruct output_lengths as [lengths|].
  2:{ injection Hrun as <- <-. split; [reflexivity|]. left. auto. }
  destruct (get_mask_from_lengths E lengths true) as [m|]; [|discriminate].
  cbn [bind] in Hrun.
  destruct (size (Torch.logical_not m) 0) as [s0|]; [|discriminate].
  cbn [bind] in Hrun.
  destruct (size (Torch.logical_not m) 1) as [s1|]; [|discriminate].
  cbn [bind] in Hrun.
  destruct (Torch.expand _ _ _) as [e|]; [|discriminate].
  cbn [bind] in Hrun.
  destruct (Torch.permute _ _ _) as [mask|]; [|discriminate].
  cbn [bind] in Hrun. unfold getitem in Hrun.
  destruct (nth_error outputs 0) as [l0|]; [|discriminate].
  cbn [bind] in Hrun.
  destruct (masked_fill_ h l0 mask 0) as [h1|] eqn:E1; [|discriminate].
  cbn [bind] in Hrun.
  destruct (nth_error outputs 1) as [l1|]; [|discriminate].
  cbn [bind] in Hrun.
  destruct (masked_fill_ h1 l1 mask 0) as [h2|] eqn:E2; [|discriminate].
  cbn [bind] in Hrun.
  destruct (size mask 2) as [s2|]; [|discriminate].
  cbn [bind] in Hrun.
  destruct (Torch.arange _ _) as [slice|]; [|discriminate].
  cbn [bind] in Hrun.
  destruct (nth_error outputs 2) as [l2|]; [|discriminate].
  cbn [bind] in Hrun.
  destruct (Torch.getitem_slice_int_index _ _ _ _) as [gm|]; [|discriminate].
  cbn [bind] in Hrun.
  destruct (masked_fill_ h2 l2 gm 1e3) as [h3|] eqn:E3; [|discriminate].
  cbn [bind] in Hrun. injection Hrun as <- <-.
  split; [reflexivity|]. right.
  exists mask, gm, l0, l1, l2, h1, h2. auto 10.
Qed.

Lemma length_write (h : heap) l t : length (write h l t) = length h.
Proof.
  revert l. induction h as [|x h IH]; intros [|l]; simpl; auto.
Qed.

(** The shape and the number of elements of a tensor object. *)
Definition extent (o : option (tensor float)) : option (list nat * nat) :=
  option_map (fun x => (shape x, length (data x))) o.

Lemma masked_fill_extent (x : tensor float) mask v x' :
  Torch.masked_fill x mask v = Ok x' ->
  shape x' = shape x /\ length (data x') = length (data x).
Proof.
  unfold Torch.masked_fill.
  destruct (Torch.broadcastable_to _ _); [|discriminate].
  intros [= <-]. split; [reflexivity|].
  unfold mapi. simpl. apply length_mapi_from.
Qed.

Lemma masked_fill__extent h l mask v h' :
  masked_fill_ h l mask v = Ok h' ->
  length h' = length h
  /\ forall l', extent (read h' l') = extent (read h l').
Proof.
  unfold masked_fill_. destruct (read h l) as [x|] eqn:Hx; [|discriminate].
  destruct (Torch.masked_fill x mask v) as [x'|] eqn:Hf; [|discriminate].
  cbn [bind]. intros [= <-]. split; [apply length_write|].
  intros l'. destruct (Nat.eq_dec l' l) as [->|Hne].
  - rewrite (read_write_same h l x' x Hx), Hx. simpl.
    destruct (masked_fill_extent _ _ _ _ Hf) as [-> ->]. reflexivity.
  - now rewrite read_write_other.
Qed.

End Inversion.

Import Inversion.

(** X2. Whenever [parse_output] returns, the heap has as many tensor objects
    as before and each has the shape and the number of elements it had:
    masking rewrites values only. *)
Theorem parse_output_keeps_extents
  self E h outputs output_lengths h' outputs' :
  parse_output self E h outputs output_lengths = Ok (h', outputs') ->
  length h' = length h
  /\ forall l, extent (read h' l) = extent (read h l).
Proof.
  intros Hrun.
  destruct (parse_output_inv _ _ _ _ _ _ _ Hrun) as [_ [[_ ->]|Hfills]].
  - auto.
  - destruct Hfills
      as (mask & gm & l0 & l1 & l2 & h1 & h2 & _ & _ & _ & _ & F1 & F2 & F3).
    destruct (masked_fill__extent _ _ _ _ _ F1) as [L1 X1].
    destruct (masked_fill__extent _ _ _ _ _ F2) as [L2 X2].
    destruct (masked_fill__extent _ _ _ _ _ F3) as [L3 X3].
    split; [congruence|]. intros l. now rewrite X3, X2, X1.
Qed.

Lemma parse_output_keeps_extents_witness :
  length Sample.the_masked_heap = length Sample.the_heap
  /\ forall l,
       extent (read Sample.the_masked_heap l)
       = extent (read Sample.the_heap l).
Proof.
  apply (parse_output_keeps_extents (Sample.model true) (Sample.env true)
           Sample.the_heap Sample.the_outputs (Some Sample.output_lengths)
           Sample.the_masked_heap Sample.the_outputs).
  vm_compute. reflexivity.
Defined.

(** X11. With the padding-mask flag on and lengths given, [parse_output]
    returns only for a list of at least three outputs: it indexes the first
    three. *)
Theorem parse_output_needs_three_outputs
  self E h outputs lengths h' outputs' :
  mask_padding self = true ->
  parse_output self E h outputs (Some lengths) = Ok (h', outputs') ->
  3 <= length outputs.
Proof.
  intros Hflag Hrun.
  destruct (parse_output_inv _ _ _ _ _ _ _ Hrun) as [_ [[[H|H] _]|Hfills]];
    try congruence.
  destruct Hfills
    as (mask & gm & l0 & l1 & l2 & h1 & h2 & _ & _ & _ & H2 & _).
  assert (Hs : nth_error outputs 2 <> None) by congruence.
  apply nth_error_Some in Hs. lia.
Qed.

Lemma parse_output_needs_three_outputs_witness :
  3 <= length Sample.the_outputs.
Proof.
  apply (parse_output_needs_three_outputs (Sample.model true)
           (Sample.env true) Sample.the_heap Sample.the_outputs
           Sample.output_lengths Sample.the_masked_heap Sample.the_outputs).
  - reflexivity.
  - vm_compute. reflexivity.
Defined.

(** ** The valid frames *)

(** X1. When [parse_output] masks, it leaves every mel and postnet-mel value
    at a time position before the item's length, and every gate value of a
    frame group that starts before it, as it was. *)
Theorem parse_output_keeps_valid
  self E h outputs lengths m b t l0 l1 l2 :
  mask_padding self = true ->
  get_mask_from_lengths E lengths true = Ok m ->
  padding_mask_of lengths m b t ->
  0 < num_mels self -> 0 < n_frames_per_step self ->
  nth_error outputs 0 = Some l0 ->
  nth_error outputs 1 = Some l1 ->
  nth_error outputs 2 = Some l2 ->
  has_shape h l0 [b; num_mels self; t] ->
  has_shape h l1 [b; num_mels self; t] ->
  has_shape h l2 [b; ceil_div t (n_frames_per_step self)] ->
  exists h',
    parse_output self E h outputs (Some lengths) = Ok (h', outputs)
    /\ forall i len,
         i < b -> get lengths [i] = Some len ->
         (forall j k,
            j < num_mels self -> k < t -> (Z.of_nat k < len)%Z ->
            read_at h' l0 [i; j; k] = read_at h l0 [i; j; k]
            /\ read_at h' l1 [i; j; k] = read_at h l1 [i; j; k])
         /\ (forall g,
               g * n_frames_per_step self < t ->
               (Z.of_nat (g * n_frames_per_step self) < len)%Z ->
               read_at h' l2 [i; g] = read_at h l2 [i; g]).
Proof.
  intros Hflag Hm [Hs Hmask] Hc Hstep H0 H1 H2 Hl0 Hl1 Hl2.
  destruct (parse_output_run self E h outputs lengths m b t l0 l1 l2)
    as (h' & mask & gm & Hrun & Hm3 & Hg & _ & _ & Hat0 & Hat1 & Hat2);
    try assumption.
  exists h'. split; [exact Hrun|].
  intros i len Hi Hlen. split.
  - intros j k Hj Hk Hlt.
    pose proof (Hm3 i j k _ Hi Hj Hk (Hmask i k len Hi Hk Hlen)) as Hv.
    apply Z.ltb_lt in Hlt. rewrite Hlt in Hv. simpl in Hv.
    rewrite Hat0, Hat1. unfold fill. rewrite Hv.
    split; [now destruct (read_at h l0 _) | now destruct (read_at h l1 _)].
  - intros g Hg1 Hlt.
    pose proof (Hg i g _ Hi Hg1 (Hmask i _ len Hi Hg1 Hlen)) as Hv.
    apply Z.ltb_lt in Hlt. rewrite Hlt in Hv. simpl in Hv.
    rewrite Hat2. unfold fill. rewrite Hv.
    now destruct (read_at h l2 _).
Qed.

Lemma parse_output_keeps_valid_witness :
  exists h',
    parse_output (Sample.model true) (Sample.env true) Sample.the_heap
      Sample.the_outputs (Some Sample.output_lengths)
    = Ok (h', Sample.the_outputs)
    /\ forall i len,
         i < 2 -> get Sample.output_lengths [i] = Some len ->
         (forall j k,
            j < 2 -> k < 4 -> (Z.of_nat k < len)%Z ->
            read_at h' 0 [i; j; k] = read_at Sample.the_heap 0 [i; j; k]
            /\ read_at h' 1 [i; j; k] = read_at Sample.the_heap 1 [i; j; k])
         /\ (forall g,
               g * 2 < 4 -> (Z.of_nat (g * 2) < len)%Z ->
               read_at h' 2 [i; g] = read_at Sample.the_heap 2 [i; g]).
Proof.
  apply (parse_output_keeps_valid (Sample.model true) (Sample.env true)
           Sample.the_heap Sample.the_outputs Sample.output_lengths
           Sample.the_mask 2 4 0 1 2).
  - reflexivity.
  - reflexivity.
  - exact sample_padding_mask.
  - simpl; lia.
  - simpl; lia.
  - reflexivity.
  - reflexivity.
  - reflexivity.
  - apply sample_has_shape. split; reflexivity.
  - apply sample_has_shape. split; reflexivity.
  - apply sample_has_shape. split; reflexivity.
Defined.

(** ** Masking twice *)

Module Idempotence.

Lemma in_bounds3_inv b c t idx :
  in_bounds [b; c; t] idx = true ->
  exists i j k, idx = [i; j; k] /\ i < b /\ j < c /\ k < t.
Proof.
  intros H.
  destruct idx as [|i idx]; [simpl in H; discriminate|].
  apply in_bounds_cons in H. destruct H as [Hi H].
  destruct idx as [|j idx]; [simpl in H; discriminate|].
  apply in_bounds_cons in H. destruct H as [Hj H].
  destruct idx as [|k idx]; [simpl in H; discriminate|].
  apply in_bounds_cons in H. destruct H as [Hk H].
  destruct idx; [|simpl in H; discriminate].
  exists i, j, k. auto.
Qed.

Lemma in_bounds2_inv b g idx :
  in_bounds [b; g] idx = true ->
  exists i k, idx = [i; k] /\ i < b /\ k < g.
Proof.
  intros H.
  destruct idx as [|i idx]; [simpl in H; discriminate|].
  apply in_bounds_cons in H. destruct H as [Hi H].
  destruct idx as [|k idx]; [simpl in H; discriminate|].
  apply in_bounds_cons in H. destruct H as [Hk H].
  destruct idx; [|simpl in H; discriminate].
  exists i, k. auto.
Qed.

Lemma has_shape_read_at_inv h l sh idx y :
  has_shape h l sh -> read_at h l idx = Some y -> in_bounds sh idx = true.
Proof.
  intros (x & Hx & Hs & _). unfold read_at. rewrite Hx. intros Hy.
  rewrite <- Hs. now apply get_in_bounds with y.
Qed.

(** A second fill through a mask that agrees with the first, wherever
    there is an element, changes nothing. *)
Lemma refill mask1 mask2 v idx (o : option float) :
  (forall y, o = Some y ->
     get_or false mask2 idx = get_or false mask1 idx) ->
  option_map (fill mask2 v idx) (option_map (fill mask1 v idx) o)
  = option_map (fill mask1 v idx) o.
Proof.
  destruct o as [y|]; [|reflexivity]. intros H. simpl. unfold fill.
  rewrite (H y eq_refl). now destruct (get_or false mask1 idx).
Qed.

End Idempotence.

Import Idempotence.

(** X3. Masking is idempotent: on outputs that [parse_output] has masked, a
    second call with the same lengths returns and changes no element of any
    tensor object. *)
Theorem parse_output_idempotent
  self E h outputs lengths m b t l0 l1 l2 :
  mask_padding self = true ->
  get_mask_from_lengths E lengths true = Ok m ->
  padding_mask_of lengths m b t ->
  (forall i, i < b -> exists len, get lengths [i] = Some len) ->
  0 < num_mels self -> 0 < n_frames_per_step self ->
  nth_error outputs 0 = Some l0 ->
  nth_error outputs 1 = Some l1 ->
  nth_error outputs 2 = Some l2 ->
  has_shape h l0 [b; num_mels self; t] ->
  has_shape h l1 [b; num_mels self; t] ->
  has_shape h l2 [b; ceil_div t (n_frames_per_step self)] ->
  exists h1 h2,
    parse_output self E h outputs (Some lengths) = Ok (h1, outputs)
    /\ parse_output self E h1 outputs (Some lengths) = Ok (h2, outputs)
    /\ forall l idx, read_at h2 l idx = read_at h1 l idx.
Proof.
  intros Hflag Hm Hpm Hlens Hc Hstep H0 H1 H2 Hl0 Hl1 Hl2.
  pose proof Hpm as [Hs Hmask].
  destruct (parse_output_run self E h outputs lengths m b t l0 l1 l2)
    as (h1 & mask1 & gm1 & Hrun1 & Hm1 & Hg1 & _ & Hkeep & Ha0 & Ha1 & Ha2);
    try assumption.
  destruct (parse_output_run self E h1 outputs lengths m b t l0 l1 l2)
    as (h2 & mask2 & gm2 & Hrun2 & Hm2 & Hg2 & Hfr & _ & Hb0 & Hb1 & Hb2);
    try assumption; auto.
  exists h1, h2. split; [exact Hrun1|]. split; [exact Hrun2|].
  assert (Hmel : forall l o idx,
            has_shape h l [b; num_mels self; t] ->
            read_at h l idx = o ->
            forall y, o = Some y ->
              get_or false mask2 idx = get_or false mask1 idx).
  { intros l o idx Hl <- y Hy.
    pose proof (has_shape_read_at_inv _ _ _ _ _ Hl Hy) as Hb.
    destruct (in_bounds3_inv _ _ _ _ Hb) as (i & j & k & -> & Hi & Hj & Hk).
    destruct (Hlens i Hi) as (len & Hlen).
    pose proof (Hmask i k len Hi Hk Hlen) as Hv.
    now rewrite (Hm1 i j k _ Hi Hj Hk Hv), (Hm2 i j k _ Hi Hj Hk Hv). }
  assert (Hgate : forall y idx,
            read_at h l2 idx = Some y ->
            get_or false gm2 idx = get_or false gm1 idx).
  { intros y idx Hy.
    pose proof (has_shape_read_at_inv _ _ _ _ _ Hl2 Hy) as Hb.
    destruct (in_bounds2_inv _ _ _ Hb) as (i & g & -> & Hi & Hg).
    apply (ceil_div_lt t _ g Hstep) in Hg.
    destruct (Hlens i Hi) as (len & Hlen).
    pose proof (Hmask i _ len Hi Hg Hlen) as Hv.
    now rewrite (Hg1 i g _ Hi Hg Hv), (Hg2 i g _ Hi Hg Hv). }
  intros l idx.
  destruct (Nat.eq_dec l l0) as [->|N0].
  { rewrite Hb0, Ha0. apply refill. now apply (Hmel l0). }
  destruct (Nat.eq_dec l l1) as [->|N1].
  { rewrite Hb1, Ha1. apply refill. now apply (Hmel l1). }
  destruct (Nat.eq_dec l l2) as [->|N2].
  { rewrite Hb2, Ha2. apply refill. intros y Hy. now apply (Hgate y). }
  apply read_at_other. now apply Hfr.
Qed.

Lemma sample_lengths_exist :
  forall i, i < 2 -> exists len, get Sample.output_lengths [i] = Some len.
Proof.
  intros i Hi. destruct i as [|[|i]]; [| |lia]; eexists; reflexivity.
Qed.

Lemma parse_output_idempotent_witness :
  exists h1 h2,
    parse_output (Sample.model true) (Sample.env true) Sample.the_heap
      Sample.the_outputs (Some Sample.output_lengths)
    = Ok (h1, Sample.the_outputs)
    /\ parse_output (Sample.model true) (Sample.env true) h1
         Sample.the_outputs (Some Sample.output_lengths)
       = Ok (h2, Sample.the_outputs)
    /\ forall l idx, read_at h2 l idx = read_at h1 l idx.
Proof.
  apply (parse_output_idempotent (Sample.model true) (Sample.env true)
           Sample.the_heap Sample.the_outputs Sample.output_lengths
           Sample.the_mask 2 4 0 1 2).
  - reflexivity.
  - reflexivity.
  - exact sample_padding_mask.
  - exact sample_lengths_exist.
  - simpl; lia.
  - simpl; lia.
  - reflexivity.
  - reflexivity.
  - reflexivity.
  - apply sample_has_shape. split; reflexivity.
  - apply sample_has_shape. split; reflexivity.
  - apply sample_has_shape. split; reflexivity.
Defined.

(** ** teacher_infer and the flag *)

(** X5. [teacher_infer] does not look at the padding-mask flag: with the flag
    set either way it returns the same, or raises the same. *)
Theorem teacher_infer_ignores_flag self E h inputs mels flag :
  teacher_infer (set_mask_padding self flag) E h inputs mels
  = teacher_infer self E h inputs mels.
Proof.
  unfold teacher_infer. cbn [set_mask_padding embedding encoder decoder postnet].
  destruct (Torch.row_lengths inputs) as [lens|]; [|reflexivity].
  cbn [bind].
  destruct (Torch.embedding_lookup _ _) as [e|]; [|reflexivity]. cbn [bind].
  destruct (Torch.transpose _ _ _ _) as [x|]; [|reflexivity]. cbn [bind].
  destruct (encoder_forward _ _ _) as [y|]; [|reflexivity]. cbn [bind].
  destruct (decoder_forward _ _ _ _) as [[[mel gate] align]|];
    [|reflexivity].
  cbn [bind].
  destruct (postnet self mel) as [post|]; [|reflexivity]. cbn [bind].
  destruct (tensor_add E mel post) as [sum|]; [|reflexivity]. cbn [bind].
  rewrite alloc_outputs_eq. now rewrite !parse_output_None.
Qed.

(** ** Symbols outside the vocabulary *)

Lemma forallb_false {A} (f : A -> bool) l x :
  In x l -> f x = false -> forallb f l = false.
Proof.
  intros Hin Hx. destruct (forallb f l) eqn:E; [|reflexivity].
  rewrite forallb_forall in E. rewrite (E x Hin) in Hx. discriminate.
Qed.

(** X6. A symbol ID that is negative or not below the number of rows of the
    embedding table makes [forward] and [inference] raise [IndexError], at
    the embedding lookup, before the encoder is called. *)
Theorem out_of_vocabulary_raises
  self E h ids n e i text_lengths mels max_len output_lengths :
  shape (embedding self) = [n; e] ->
  In i (data ids) ->
  (i < 0 \/ Z.of_nat n <= i)%Z ->
  forward self E h (ids, text_lengths, mels, max_len, output_lengths)
  = Raise IndexError
  /\ inference self E h ids = Raise IndexError.
Proof.
  intros Hs Hin Hbad.
  assert (Hl : Torch.embedding_lookup (embedding self) ids
               = Raise IndexError).
  { unfold Torch.embedding_lookup. rewrite Hs.
    rewrite (forallb_false _ _ i Hin); [reflexivity|].
    apply andb_false_iff. destruct Hbad as [H|H].
    - left. now apply Z.leb_gt.
    - right. now apply Z.ltb_ge. }
  unfold forward, inference. now rewrite Hl.
Qed.

Lemma out_of_vocabulary_raises_witness :
  forward (Sample.model true) (Sample.env true) []
    (Tensor.mk [1; 2] [0; 2]%Z, Sample.input_lengths, Sample.mel_padded,
     3%Z, Sample.output_lengths)
  = Raise IndexError
  /\ inference (Sample.model true) (Sample.env true) []
       (Tensor.mk [1; 2] [0; 2]%Z)
     = Raise IndexError.
Proof.
  apply (out_of_vocabulary_raises (Sample.model true) (Sample.env true) []
           (Tensor.mk [1; 2] [0; 2]%Z) 2 1 2%Z).
  - reflexivity.
  - simpl. auto.
  - right. simpl. lia.
Defined.

(** ** Outputs that do not fit the mask *)

Lemma dims_ok3 b c t b' c' t' :
  Torch.broadcastable_to [b; c; t] [b'; c'; t']
  = Torch.dim_ok b b' && (Torch.dim_ok c c' && (Torch.dim_ok t t' && true)).
Proof. reflexivity. Qed.

Lemma dim_ok_false n m : n <> m -> n <> 1 -> Torch.dim_ok n m = false.
Proof.
  intros H1 H2. unfold Torch.dim_ok.
  destruct (Nat.eqb_spec n m); [contradiction|].
  destruct (Nat.eqb_spec n 1); [contradiction|]. reflexivity.
Qed.

(** X7. When [parse_output] masks and the raw mel tensor has a time length
    other than the width of the mask (a mask one step wide apart, which
    broadcasts), it raises [RuntimeError]: the outputs must be as long as the
    padded batch. *)
Theorem parse_output_rejects_time_mismatch
  self E h outputs lengths m b t t' l0 x :
  mask_padding self = true ->
  get_mask_from_lengths E lengths true = Ok m ->
  shape m = [b; t] ->
  nth_error outputs 0 = Some l0 ->
  read h l0 = Some x ->
  shape x = [b; num_mels self; t'] ->
  t <> t' -> t <> 1 ->
  parse_output self E h outputs (Some lengths) = Raise RuntimeError.
Proof.
  intros Hflag Hm Hs H0 Hx Hxs Hne H1.
  destruct (expand_permute (Torch.logical_not m) b t (num_mels self))
    as (e & mask & He & Hp & Hmask & _); [exact Hs|].
  unfold parse_output. rewrite Hflag, Hm. cbn [bind].
  unfold size. change (shape (Torch.logical_not m)) with (shape m).
  rewrite Hs. cbn [nth_error bind]. rewrite He. cbn [bind].
  rewrite Hp. cbn [bind]. unfold getitem. rewrite H0. cbn [bind].
  unfold masked_fill_. rewrite Hx. unfold Torch.masked_fill.
  rewrite Hmask, Hxs, dims_ok3, (dim_ok_false t t' Hne H1).
  now rewrite !andb_false_r.
Qed.

Lemma parse_output_rejects_time_mismatch_witness :
  parse_output (Sample.model true) (Sample.env true)
    [build [2; 2; 5] (fun _ => 1%float)] [0] (Some Sample.output_lengths)
  = Raise RuntimeError.
Proof.
  apply (parse_output_rejects_time_mismatch (Sample.model true)
           (Sample.env true) [build [2; 2; 5] (fun _ => 1%float)] [0]
           Sample.output_lengths Sample.the_mask 2 4 5 0
           (build [2; 2; 5] (fun _ => 1%float))).
  - reflexivity.
  - reflexivity.
  - reflexivity.
  - reflexivity.
  - reflexivity.
  - reflexivity.
  - discriminate.
  - discriminate.
Defined.

Lemma ceil_div_inexact t s :
  0 < s -> t mod s <> 0 -> ceil_div t s = S (t / s).
Proof.
  intros Hs Hm. unfold ceil_div.
  pose proof (Nat.div_mod_eq t s) as E.
  pose proof (Nat.mod_upper_bound t s ltac:(lia)) as Hlt.
  symmetry. apply Nat.div_unique with (r := t mod s - 1); [lia | nia].
Qed.

(** X8. When [parse_output] masks a batch whose padded time length is more
    than one frame group and no multiple of the frames per step, a gate
    tensor of [t / n_frames_per_step] groups makes it raise [RuntimeError]:
    the gate mask has one group more. *)
Theorem parse_output_rejects_inexact_gate
  self E h outputs lengths m b t l0 l1 l2 :
  mask_padding self = true ->
  get_mask_from_lengths E lengths true = Ok m ->
  shape m = [b; t] ->
  0 < num_mels self -> 0 < n_frames_per_step self ->
  n_frames_per_step self < t ->
  t mod n_frames_per_step self <> 0 ->
  nth_error outputs 0 = Some l0 ->
  nth_error outputs 1 = Some l1 ->
  nth_error outputs 2 = Some l2 ->
  has_shape h l0 [b; num_mels self; t] ->
  has_shape h l1 [b; num_mels self; t] ->
  has_shape h l2 [b; t / n_frames_per_step self] ->
  parse_output self E h outputs (Some lengths) = Raise RuntimeError.
Proof.
  intros Hflag Hm Hs Hc Hstep Hlong Hmod H0 H1 H2 Hl0 Hl1 Hl2.
  set (c := num_mels self) in *. set (s := n_frames_per_step self) in *.
  destruct (expand_permute (Torch.logical_not m) b t c)
    as (e & mask & He & Hp & Hmask & Hget); [exact Hs|].
  destruct (arange_spec t s Hstep) as (slice & Har & Hlen & Hnth & Hall).
  destruct (getitem_slice_int_index_spec mask b c t slice Hmask Hc Hall)
    as (gm & Hgm & Hgs & Hgg).
  rewrite Hlen in Hgs.
  destruct (fill_step h l0 mask 0%float _ Hl0 Hmask)
    as (h1 & Hrun1 & Hsh1 & _).
  destruct (fill_step h1 l1 mask 0%float _ (Hsh1 _ _ Hl1) Hmask)
    as (h2 & Hrun2 & Hsh2 & _).
  destruct (Hsh2 _ _ (Hsh1 _ _ Hl2)) as (g & Hg & Hgshape & _).
  unfold parse_output. rewrite Hflag, Hm. cbn [bind].
  unfold size. change (shape (Torch.logical_not m)) with (shape m).
  rewrite Hs. cbn [nth_error bind].
  fold c. rewrite He. cbn [bind]. rewrite Hp. cbn [bind].
  unfold getitem. rewrite H0, H1, H2. cbn [bind].
  rewrite Hrun1. cbn [bind]. rewrite Hrun2. cbn [bind].
  rewrite Hmask. cbn [nth_error bind]. fold s. rewrite Har. cbn [bind].
  rewrite Hgm. cbn [bind].
  unfold masked_fill_. rewrite Hg. unfold Torch.masked_fill.
  rewrite Hgs, Hgshape.
  assert (Hbad : Torch.dim_ok (ceil_div t s) (t / s) = false).
  { rewrite (ceil_div_inexact t s Hstep Hmod).
    apply dim_ok_false; [lia|].
    pose proof (Nat.div_mod_eq t s) as Ed.
    pose proof (Nat.mod_upper_bound t s ltac:(lia)) as Hlt.
    assert (0 < t / s) by nia. lia. }
  unfold Torch.broadcastable_to. simpl. rewrite Hbad.
  now rewrite !andb_false_r.
Qed.

Lemma parse_output_rejects_inexact_gate_witness :
  parse_output (Sample.model true) (Sample.env true)
    [build [2; 2; 3] (fun _ => 1%float);
     build [2; 2; 3] (fun _ => 2%float);
     build [2; 1] (fun _ => 0.5%float)]
    [0; 1; 2] (Some (Tensor.mk [2] [3; 2]%Z))
  = Raise RuntimeError.
Proof.
  eapply (parse_output_rejects_inexact_gate (Sample.model true)
            (Sample.env true) _ [0; 1; 2] (Tensor.mk [2] [3; 2]%Z) _ 2 3
            0 1 2).
  - reflexivity.
  - vm_compute. reflexivity.
  - reflexivity.
  - simpl; lia.
  - simpl; lia.
  - simpl; lia.
  - simpl; discriminate.
  - reflexivity.
  - reflexivity.
  - reflexivity.
  - eexists. split; [reflexivity|]. split; reflexivity.
  - eexists. split; [reflexivity|]. split; reflexivity.
  - eexists. split; [reflexivity|]. split; reflexivity.
Defined.

(** ** The gate that forward returns *)

(** X9. With masking, the gate tensor that [forward] returns holds, for each
    item, the decoder's gate value at every frame group that starts before
    the item's length and the literal [1e3] at every group that starts at or
    beyond it; the alignments are the decoder's. *)
Theorem forward_gate_sentinel
  self E h text_inputs text_lengths mels max_len output_lengths
  e embedded encoded mel gate align post m b t :
  Torch.embedding_lookup (embedding self) text_inputs = Ok e ->
  Torch.transpose 0%float e 1 2 = Ok embedded ->
  encoder_forward (encoder self) embedded text_lengths = Ok encoded ->
  decoder_forward (decoder self) encoded mels text_lengths
  = Ok (mel, gate, align) ->
  postnet self mel = Ok post ->
  shape post = shape mel ->
  mask_padding self = true ->
  get_mask_from_lengths E output_lengths true = Ok m ->
  padding_mask_of output_lengths m b t ->
  0 < num_mels self -> 0 < n_frames_per_step self ->
  shape mel = [b; num_mels self; t] -> wf mel ->
  shape gate = [b; ceil_div t (n_frames_per_step self)] -> wf gate ->
  exists h',
    forward self E h
      (text_inputs, text_lengths, mels, max_len, output_lengths)
    = Ok (h', [length h; S (length h); S (S (length h));
               S (S (S (length h)))])
    /\ read h' (S (S (S (length h)))) = Some align
    /\ forall i g len x,
         i < b -> g * n_frames_per_step self < t ->
         get output_lengths [i] = Some len ->
         get gate [i; g] = Some x ->
         ((Z.of_nat (g * n_frames_per_step self) < len)%Z ->
          read_at h' (S (S (length h))) [i; g] = Some x)
         /\ ((len <= Z.of_nat (g * n_frames_per_step self))%Z ->
             read_at h' (S (S (length h))) [i; g] = Some 1e3%float).
Proof.
  intros He Ht Henc Hdec Hpost Hshape Hon Hm [Hs Hmask] Hc Hstep
    Hms Hmw Hgs Hgw.
  destruct (add_same_shape 0%float (scalar_add E) mel post Hshape)
    as (sum & Hsum & Hss & Hsw & _).
  rewrite (forward_run self E h _ _ _ max_len output_lengths e embedded
             encoded mel gate align post sum) by assumption.
  destruct (outputs_have_shapes h mel sum gate align b (num_mels self) t
              (ceil_div t (n_frames_per_step self)))
    as (Hl0 & Hl1 & Hl2); try assumption; [congruence|].
  destruct (parse_output_run self E (h ++ [mel; sum; gate; align])
              [length h; S (length h); S (S (length h));
               S (S (S (length h)))]
              output_lengths m b t (length h) (S (length h))
              (S (S (length h))))
    as (h' & mask & gm & Hrun & _ & Hg & Hframe & _ & _ & _ & Hat2);
    try assumption; try reflexivity.
  exists h'. split; [exact Hrun|]. split.
  { rewrite Hframe by lia. apply read_app_3. }
  intros i g len x Hi Hg1 Hlen Hx.
  pose proof (Hg i g _ Hi Hg1 (Hmask i _ len Hi Hg1 Hlen)) as Hv.
  rewrite Hat2. unfold read_at. rewrite read_app_2, Hx.
  unfold fill. simpl. rewrite Hv. split.
  - intros Hlt. apply Z.ltb_lt in Hlt. now rewrite Hlt.
  - intros Hge. apply Z.ltb_ge in Hge. now rewrite Hge.
Qed.

Lemma forward_gate_sentinel_witness :
  exists h',
    forward (Sample.model true) (Sample.env true) [] Sample.the_inputs
    = Ok (h', [0; 1; 2; 3])
    /\ read h' 3 = Some Sample.the_alignments
    /\ read_at h' 2 [1; 0] = Some 0.5%float
    /\ read_at h' 2 [1; 1] = Some 1e3%float.
Proof.
  destruct (forward_gate_sentinel (Sample.model true) (Sample.env true)
              [] Sample.text_padded Sample.input_lengths Sample.mel_padded
              3%Z Sample.output_lengths Sample.the_looked_up
              Sample.the_embedded Sample.the_embedded Sample.mel_padded
              Sample.the_gate Sample.the_alignments Sample.the_post
              Sample.the_mask 2 4
              eq_refl eq_refl eq_refl eq_refl eq_refl eq_refl eq_refl
              eq_refl sample_padding_mask (Nat.lt_0_succ 1)
              (Nat.lt_0_succ 1) eq_refl eq_refl eq_refl eq_refl)
    as (h' & Hrun & Halign & Hgate).
  exists h'. split; [exact Hrun|]. split; [exact Halign|].
  assert (H12 : 1 < 2) by lia.
  assert (H04 : 0 * 2 < 4) by (simpl; lia).
  assert (H24 : 1 * 2 < 4) by (simpl; lia).
  destruct (Hgate 1 0 2%Z 0.5%float H12 H04 eq_refl eq_refl) as [Hvalid _].
  destruct (Hgate 1 1 2%Z 0.5%float H12 H24 eq_refl eq_refl) as [_ Hpad].
  split; [apply Hvalid; simpl; lia | apply Hpad; simpl; lia].
Defined.

(** ** When parse_batch raises *)

(** X10. [parse_batch] raises exactly when the vector of input lengths has no
    element, and what it raises then is the [RuntimeError] of [torch.max];
    shapes and values of the batch are not looked at otherwise. *)
Theorem parse_batch_raises_iff_empty
  E text_padded input_lengths mel_padded gate_padded output_lengths exc :
  parse_batch E
    (text_padded, input_lengths, mel_padded, gate_padded, output_lengths)
  = Raise exc
  <-> data (Cast.long E input_lengths) = [] /\ exc = RuntimeError.
Proof.
  unfold parse_batch, Torch.max, mode.
  destruct (data (Cast.long E input_lengths)) as [|x l]; cbn [bind].
  - split.
    + intros [= <-]. auto.
    + intros [_ ->]. reflexivity.
  - split.
    + discriminate.
    + intros [H _]. discriminate.
Qed.

(** ** Inputs that are not batched *)

(** X12. The passes need a batch of rows.  On a 1-D tensor of valid symbol
    IDs the embedding has two dimensions only, and [forward] and [inference]
    raise [IndexError] at the transposition of dimensions 1 and 2;
    [teacher_infer], unless the tensor is empty, raises [TypeError] earlier,
    at the length of its first element. *)
Theorem unbatched_input_raises
  self E h ids n v e text_lengths mels max_len output_lengths :
  shape ids = [n] ->
  shape (embedding self) = [v; e] ->
  forallb (fun i => (0 <=? i)%Z && (i <? Z.of_nat v)%Z) (data ids) = true ->
  forward self E h (ids, text_lengths, mels, max_len, output_lengths)
  = Raise IndexError
  /\ inference self E h ids = Raise IndexError
  /\ (0 < n -> teacher_infer self E h ids mels = Raise TypeError).
Proof.
  intros Hids Hw Hvalid.
  assert (Hl : bind (Torch.embedding_lookup (embedding self) ids)
                 (fun x => Torch.transpose 0%float x 1 2)
               = Raise IndexError).
  { unfold Torch.embedding_lookup. rewrite Hw, Hvalid, Hids. reflexivity. }
  split; [|split].
  - unfold forward.
    destruct (Torch.embedding_lookup (embedding self) ids) as [x|];
      cbn [bind] in *; [now rewrite Hl | congruence].
  - unfold inference.
    destruct (Torch.embedding_lookup (embedding self) ids) as [x|];
      cbn [bind] in *; [now rewrite Hl | congruence].
  - intros Hn. unfold teacher_infer, Torch.row_lengths. rewrite Hids.
    destruct n; [lia | reflexivity].
Qed.

Lemma unbatched_input_raises_witness :
  forward (Sample.model true) (Sample.env true) []
    (Tensor.mk [3] [0; 1; 1]%Z, Sample.input_lengths, Sample.mel_padded,
     3%Z, Sample.output_lengths)
  = Raise IndexError
  /\ inference (Sample.model true) (Sample.env true) []
       (Tensor.mk [3] [0; 1; 1]%Z)
     = Raise IndexError
  /\ (0 < 3 ->
      teacher_infer (Sample.model true) (Sample.env true) []
        (Tensor.mk [3] [0; 1; 1]%Z) Sample.mel_padded
      = Raise TypeError).
Proof.
  apply (unbatched_input_raises (Sample.model true) (Sample.env true) []
           (Tensor.mk [3] [0; 1; 1]%Z) 3 2 1).
  - reflexivity.
  - reflexivity.
  - reflexivity.
Defined.
